(** * Object lifetime management of class [A] (ObjectLifetimeManagement.cpp)

    A shallow embedding of the resource-owning class [A] (an [int*] with a
    length) and of its constructors, conversion operator, assignment
    operators and destructor, over an explicit store of objects and of
    heap blocks, followed by the properties of the lifetime contract. *)

From stdpp Require Import gmap strings list fin_maps.
From Stdlib Require Import ZArith QArith.QArith_base Floats.SpecFloat.

Local Open Scope Z_scope.

(** ** Machine integers and doubles *)

Definition INT_MIN : Z := -2147483648.
Definition INT_MAX : Z := 2147483647.
Definition in_int (z : Z) : Prop := INT_MIN <= z <= INT_MAX.
Definition sizeof_int : Z := 4.

(** [static_cast<int>(d)]: the fractional part is discarded; the behaviour
    is undefined ([None]) when the truncated value is not an [int], and for
    infinities and NaN.  A finite double is [(-1)^s * m * 2^e]. *)
Definition static_cast_int (d : spec_float) : option Z :=
  match d with
  | S754_zero _ => Some 0
  | S754_finite s m e =>
      let mag := if 0 <=? e then Z.shiftl (Z.pos m) e else Z.shiftr (Z.pos m) (- e) in
      let z := if s then - mag else mag in
      if (INT_MIN <=? z) && (z <=? INT_MAX) then Some z else None
  | S754_infinity _ | S754_nan => None
  end.

(** The real number a double stands for, as a fraction; and truncation of a
    real toward zero, as the specification words it. *)
Definition double_value (d : spec_float) : option Q :=
  match d with
  | S754_zero _ => Some (0 # 1)%Q
  | S754_finite s m e =>
      let n := if s then Z.neg m else Z.pos m in
      Some (match e with
            | Z0 => n # 1
            | Z.pos k => (n * 2 ^ Z.pos k) # 1
            | Z.neg k => n # (2 ^ k)%positive
            end)%Q
  | S754_infinity _ | S754_nan => None
  end.

Definition truncate (q : Q) : Z := Z.quot (Qnum q) (Z.pos (Qden q)).

(** ** The store *)

(** An object of class [A]: [int* data] ([None] is [nullptr]) and [int size]. *)
Record A : Type := mkA { data : option positive; size : Z }.

#[global] Instance A_eq_dec : EqDecision A.
Proof. solve_decision. Defined.

(** The live objects, the live [int] arrays (a cell is [None] while its value
    is indeterminate), the number of [int]s the allocator can still hand out,
    and the lines written to [std::cout]. *)
Record state : Type := mkState {
  objs : gmap positive A;
  heap : gmap positive (list (option Z));
  avail : Z;
  cout : list string
}.

Definition set_objs (f : gmap positive A → gmap positive A) (s : state) : state :=
  mkState (f (objs s)) (heap s) (avail s) (cout s).
Definition set_heap (f : gmap positive (list (option Z)) → gmap positive (list (option Z)))
    (s : state) : state :=
  mkState (objs s) (f (heap s)) (avail s) (cout s).
Definition set_avail (f : Z → Z) (s : state) : state :=
  mkState (objs s) (heap s) (f (avail s)) (cout s).
Definition set_cout (f : list string → list string) (s : state) : state :=
  mkState (objs s) (heap s) (avail s) (f (cout s)).

Definition init (budget : Z) : state := mkState ∅ ∅ budget [].

(** ** Computations: state, exceptions and undefined behaviour *)

Inductive exn : Type := bad_alloc.

Inductive outcome (T : Type) : Type :=
  | Ok (v : T) (s : state)
  | Throw (e : exn) (s : state)
  | Undef.
Arguments Ok {T} v s.
Arguments Throw {T} e s.
Arguments Undef {T}.

Definition M (T : Type) : Type := state → outcome T.

Definition ret {T} (v : T) : M T := λ s, Ok v s.
Definition bind {T U} (c : M T) (k : T → M U) : M U :=
  λ s, match c s with
       | Ok v s' => k v s'
       | Throw e s' => Throw e s'
       | Undef => Undef
       end.
Definition undef {T} : M T := λ _, Undef.

Notation "x <- c ;; k" := (bind c (λ x, k))
  (at level 100, c at next level, k at level 200, right associativity, only parsing).
Notation "c ;;; k" := (bind c (λ _, k))
  (at level 100, k at level 200, right associativity, only parsing).

(** [std::cout << line << std::endl] *)
Definition print (line : string) : M unit :=
  λ s, Ok tt (set_cout (λ l, l ++ [line]) s).

(** A further [<< std::endl] on a line already ended: an empty line. *)
Definition endl : M unit :=
  λ s, Ok tt (set_cout (λ l, l ++ [EmptyString]) s).

(** [new int[n]]: a fresh block of [n] indeterminate cells, or [bad_alloc]. *)
Definition new_int_array (n : Z) : M positive :=
  λ s, if (0 <=? n) && (n <=? avail s)
       then let a := fresh (dom (heap s)) in
            Ok a (set_avail (λ m, m - n)
                    (set_heap (insert a (replicate (Z.to_nat n) None)) s))
       else Throw bad_alloc s.

(** [delete[] p]: nothing for [nullptr]; undefined for a pointer that is not
    a live block. *)
Definition delete_array (p : option positive) : M unit :=
  match p with
  | None => ret tt
  | Some a =>
      λ s, match heap s !! a with
           | Some blk => Ok tt (set_avail (λ m, m + Z.of_nat (length blk))
                                  (set_heap (delete a) s))
           | None => Undef
           end
  end.

(** [p[i] = v] *)
Definition store_elem (p : option positive) (i v : Z) : M unit :=
  match p with
  | None => undef
  | Some a =>
      λ s, match heap s !! a with
           | Some blk =>
               if (0 <=? i) && (i <? Z.of_nat (length blk))
               then Ok tt (set_heap (insert a (<[Z.to_nat i := Some v]> blk)) s)
               else Undef
           | None => Undef
           end
  end.

(** [std::memcpy(dst, src, nbytes)] between two [int] arrays. *)
Definition memcpy (dst src : option positive) (nbytes : Z) : M unit :=
  match dst, src with
  | Some d, Some r =>
      λ s, match heap s !! d, heap s !! r with
           | Some bd, Some br =>
               let k := Z.to_nat (nbytes / sizeof_int) in
               if (nbytes mod sizeof_int =? 0) && (0 <=? nbytes)
                  && (Z.of_nat k <=? Z.of_nat (length bd))
                  && (Z.of_nat k <=? Z.of_nat (length br))
               then Ok tt (set_heap (insert d (take k br ++ drop k bd)) s)
               else Undef
           | _, _ => Undef
           end
  | _, _ => undef
  end.

(** Member access through a pointer to an object. *)
Definition get_size (o : positive) : M Z :=
  λ s, match objs s !! o with Some x => Ok (size x) s | None => Undef end.
Definition get_data (o : positive) : M (option positive) :=
  λ s, match objs s !! o with Some x => Ok (data x) s | None => Undef end.
Definition set_size (o : positive) (v : Z) : M unit :=
  λ s, match objs s !! o with
       | Some x => Ok tt (set_objs (insert o (mkA (data x) v)) s)
       | None => Undef
       end.
Definition set_data (o : positive) (v : option positive) : M unit :=
  λ s, match objs s !! o with
       | Some x => Ok tt (set_objs (insert o (mkA v (size x))) s)
       | None => Undef
       end.

(** Running a constructor: a new object comes to life with its members
    initialised, the body runs on it; if the body throws, the object never
    existed. *)
Definition construct (members : A) (body : positive → M unit) : M positive :=
  λ s, let this := fresh (dom (objs s)) in
       match body this (set_objs (insert this members) s) with
       | Ok _ s' => Ok this s'
       | Throw e s' => Throw e (set_objs (delete this) s')
       | Undef => Undef
       end.

(** End of an object's lifetime, after its destructor body. *)
Definition release (o : positive) : M unit :=
  λ s, match objs s !! o with
       | Some _ => Ok tt (set_objs (delete o) s)
       | None => Undef
       end.

(** ** Class [A] *)

(** [for (int i = 0; i < bound; ++i) data[i] = 0;] from counter [i] on.
    [bound] is re-read at every test, as the loop does; [fuel] bounds the
    number of iterations and the callers pass the bound itself. *)
Fixpoint zero_fill (fuel : nat) (bound : M Z) (this : positive) (i : Z) : M unit :=
  b <- bound ;;
  if i <? b then
    match fuel with
    | O => undef
    | S fuel' =>
        p <- get_data this ;;
        store_elem p i 0 ;;;
        zero_fill fuel' bound this (i + 1)
    end
  else ret tt.

(** [A::A() : data(nullptr), size(0)] *)
Definition A_default : M positive :=
  construct (mkA None 0) (λ this, print "Default constructor").

(** [A::A(int size) : size(size)]; the parameter hides the member in the
    body, [data] starts from its default member initialiser. *)
Definition A_int (n : Z) : M positive :=
  construct (mkA None n) (λ this,
    print "Parameterized constructor" ;;;
    if 0 <? n then
      p <- new_int_array n ;;
      set_data this (Some p) ;;;
      zero_fill (Z.to_nat n) (ret n) this 0
    else set_data this None).

(** [A::A(double d) : size(static_cast<int>(d))] *)
Definition A_double (d : spec_float) : M positive :=
  match static_cast_int d with
  | None => undef
  | Some n =>
      construct (mkA None n) (λ this,
        print "conversion constructor (double to A)" ;;;
        sz <- get_size this ;;
        if 0 <? sz then
          p <- new_int_array sz ;;
          set_data this (Some p) ;;;
          zero_fill (Z.to_nat sz) (get_size this) this 0
        else set_data this None)
  end.

(** [A::operator int() const] *)
Definition operator_int (this : positive) : M Z :=
  print "Conversion operator (A to int)" ;;;
  get_size this.

(** [A::A(const A& other) : size(other.size)] *)
Definition A_copy (other : positive) : M positive :=
  osz <- get_size other ;;
  construct (mkA None osz) (λ this,
    print "Copy constructor" ;;;
    sz <- get_size this ;;
    if 0 <? sz then
      p <- new_int_array sz ;;
      set_data this (Some p) ;;;
      dst <- get_data this ;;
      src <- get_data other ;;
      sz' <- get_size this ;;
      memcpy dst src (sz' * sizeof_int)
    else set_data this None).

(** [A::A(A&& other)]: no member initialiser, so [data = nullptr] and
    [size = 0] come from the class definition, and the body exchanges them
    with [other]'s. *)
Definition A_move (other : positive) : M positive :=
  construct (mkA None 0) (λ this,
    print "Move constructor" ;;;
    tmp_size <- get_size this ;;
    tmp_data <- get_data this ;;
    osz <- get_size other ;;
    set_size this osz ;;;
    odt <- get_data other ;;
    set_data this odt ;;;
    set_size other tmp_size ;;;
    set_data other tmp_data).

(** [A& A::operator=(const A& other)]; the result is [*this]. *)
Definition operator_assign_copy (this other : positive) : M positive :=
  print "Copy assignment operator" ;;;
  (if decide (this ≠ other) then
     old <- get_data this ;;
     delete_array old ;;;
     osz <- get_size other ;;
     set_size this osz ;;;
     sz <- get_size this ;;
     if 0 <? sz then
       p <- new_int_array sz ;;
       set_data this (Some p) ;;;
       dst <- get_data this ;;
       src <- get_data other ;;
       sz' <- get_size this ;;
       memcpy dst src (sz' * sizeof_int)
     else set_data this None
   else ret tt) ;;;
  ret this.

(** [A& A::operator=(A&& other)] *)
Definition operator_assign_move (this other : positive) : M positive :=
  print "Move copy assignment operator" ;;;
  if decide (this = other) then ret this
  else
    tmp_size <- get_size this ;;
    tmp_data <- get_data this ;;
    osz <- get_size other ;;
    set_size this osz ;;;
    odt <- get_data other ;;
    set_data this odt ;;;
    set_size other tmp_size ;;;
    set_data other tmp_data ;;;
    ret this.

(** [A::~A()], then the object is gone. *)
Definition A_dtor (this : positive) : M unit :=
  print "Destructor" ;;;
  p <- get_data this ;;
  delete_array p ;;;
  release this.

(** The operations of the class as one interface. *)
Inductive op : Type :=
  | OpDefault
  | OpInt (n : Z)
  | OpDouble (d : spec_float)
  | OpToInt (this : positive)
  | OpCopy (other : positive)
  | OpMove (other : positive)
  | OpCopyAssign (this other : positive)
  | OpMoveAssign (this other : positive)
  | OpDestroy (this : positive).

Inductive value : Type := VObj (o : positive) | VInt (z : Z) | VUnit.

Definition exec (o : op) : M value :=
  match o with
  | OpDefault => this <- A_default ;; ret (VObj this)
  | OpInt n => this <- A_int n ;; ret (VObj this)
  | OpDouble d => this <- A_double d ;; ret (VObj this)
  | OpToInt this => z <- operator_int this ;; ret (VInt z)
  | OpCopy other => this <- A_copy other ;; ret (VObj this)
  | OpMove other => this <- A_move other ;; ret (VObj this)
  | OpCopyAssign this other => r <- operator_assign_copy this other ;; ret (VObj r)
  | OpMoveAssign this other => r <- operator_assign_move this other ;; ret (VObj r)
  | OpDestroy this => A_dtor this ;;; ret VUnit
  end.

(** The double [1.23] of [main]. *)
Definition d_1_23 : spec_float := S754_finite false 5539427541665710 (-52).

(** [main]: the four tests, then the destructors of the twelve locals in
    reverse order of declaration. *)
Definition main : M Z :=
  print "TEST 1 START" ;;;
  a <- A_default ;;
  a1 <- A_int 123 ;;
  a2 <- A_double d_1_23 ;;
  print "TEST 1 END" ;;;
  endl ;;;
  print "TEST 2 START" ;;;
  a3 <- A_double d_1_23 ;;
  tmp <- operator_int a3 ;;
  print "TEST 2 END" ;;;
  endl ;;;
  print "TEST 3 START" ;;;
  a4 <- A_int 123 ;;
  a5 <- A_copy a4 ;;
  a6 <- A_copy a4 ;;
  a7 <- A_move a5 ;;
  a8 <- A_move a6 ;;
  print "TEST 3 END" ;;;
  endl ;;;
  print "TEST 4 START" ;;;
  a9 <- A_int 123 ;;
  a10 <- A_default ;;
  _ <- operator_assign_copy a10 a9 ;;
  a11 <- A_default ;;
  _ <- operator_assign_move a11 a9 ;;
  print "TEST 4 END" ;;;
  endl ;;;
  A_dtor a11 ;;; A_dtor a10 ;;; A_dtor a9 ;;; A_dtor a8 ;;; A_dtor a7 ;;;
  A_dtor a6 ;;; A_dtor a5 ;;; A_dtor a4 ;;; A_dtor a3 ;;; A_dtor a2 ;;;
  A_dtor a1 ;;; A_dtor a ;;;
  ret 0.

(** ** Buffers and their invariants *)

(** The storage block an object's [data] designates: empty for [nullptr],
    [None] for a pointer to no live block. *)
Definition storage (h : gmap positive (list (option Z))) (o : A) : option (list (option Z)) :=
  match data o with
  | None => Some []
  | Some a => h !! a
  end.

(** The state invariant of the specification: the length is non-negative,
    there is storage exactly when the length is positive, and the storage
    has exactly [length] cells. *)
Definition valid_buffer (h : gmap positive (list (option Z))) (o : A) : Prop :=
  match storage h o with
  | Some blk =>
      0 <= size o ∧ (is_Some (data o) ↔ 0 < size o) ∧ Z.of_nat (length blk) = size o
  | None => False
  end.

(** What the code maintains: as above, but a [nullptr] object may carry any
    length that is not positive. *)
Definition sound_buffer (h : gmap positive (list (option Z))) (o : A) : Prop :=
  match storage h o with
  | Some blk =>
      (is_Some (data o) ↔ 0 < size o) ∧ (is_Some (data o) → Z.of_nat (length blk) = size o)
  | None => False
  end.

#[global] Instance valid_buffer_dec h o : Decision (valid_buffer h o).
Proof. unfold valid_buffer. destruct (storage h o); apply _. Defined.

#[global] Instance sound_buffer_dec h o : Decision (sound_buffer h o).
Proof. unfold sound_buffer. destruct (storage h o); apply _. Defined.

(** No block is owned by two live objects. *)
Definition exclusive (m : gmap positive A) : Prop :=
  map_Forall (λ i oi,
    map_Forall (λ j oj, is_Some (data oi) → data oi = data oj → i = j) m) m.

Definition wf (s : state) : Prop :=
  map_Forall (λ _ o, sound_buffer (heap s) o) (objs s) ∧ exclusive (objs s).

Definition valid (s : state) : Prop :=
  map_Forall (λ _ o, valid_buffer (heap s) o) (objs s) ∧ exclusive (objs s).

#[global] Instance wf_dec s : Decision (wf s).
Proof. unfold wf, exclusive. apply _. Defined.

#[global] Instance valid_dec s : Decision (valid s).
Proof. unfold valid, exclusive. apply _. Defined.

(** Two outcomes that differ at most in what was printed. *)
Definition same_store (s1 s2 : state) : Prop :=
  objs s1 = objs s2 ∧ heap s1 = heap s2 ∧ avail s1 = avail s2.

Definition same_outcome {T} (r1 r2 : outcome T) : Prop :=
  match r1, r2 with
  | Ok v1 s1, Ok v2 s2 => v1 = v2 ∧ same_store s1 s2
  | Throw e1 s1, Throw e2 s2 => e1 = e2 ∧ same_store s1 s2
  | Undef, Undef => True
  | _, _ => False
  end.

(** Operations that request memory, and how many [int]s they request. *)
Definition allocating (o : op) : bool :=
  match o with
  | OpInt _ | OpDouble _ | OpCopy _ | OpCopyAssign _ _ => true
  | _ => false
  end.

(** The operands of an operation are live objects and its [double] can be
    converted. *)
Definition operands_ok (o : op) (s : state) : Prop :=
  match o with
  | OpDefault | OpInt _ => True
  | OpDouble d => is_Some (static_cast_int d)
  | OpToInt this | OpDestroy this => is_Some (objs s !! this)
  | OpCopy other | OpMove other => is_Some (objs s !! other)
  | OpCopyAssign this other | OpMoveAssign this other =>
      is_Some (objs s !! this) ∧ is_Some (objs s !! other)
  end.

(** No constructor is given a negative length. *)
Definition nonneg_args (o : op) : Prop :=
  match o with
  | OpInt n => 0 <= n
  | OpDouble d => ∀ n, static_cast_int d = Some n → 0 <= n
  | _ => True
  end.

(** ** Closed forms of the operations *)

(** Closed form of the two length constructors. *)
Definition built (n : Z) (line : string) (s : state) : outcome positive :=
  let this := fresh (dom (objs s)) in
  let a := fresh (dom (heap s)) in
  if 0 <? n then
    if n <=? avail s then
      Ok this (mkState (<[this := mkA (Some a) n]> (objs s))
                       (<[a := replicate (Z.to_nat n) (Some 0)]> (heap s))
                       (avail s - n) (cout s ++ [line]))
    else Throw bad_alloc (set_cout (λ l, l ++ [line]) s)
  else
    Ok this (mkState (<[this := mkA None n]> (objs s)) (heap s) (avail s)
                     (cout s ++ [line])).

(** The state once [delete[]] has run on the storage of [o]. *)
Definition freed (o : A) (s : state) : state :=
  match data o with
  | None => s
  | Some b =>
      match heap s !! b with
      | Some blk => mkState (objs s) (delete b (heap s))
                            (avail s + Z.of_nat (length blk)) (cout s)
      | None => s
      end
  end.

(** Closed form of the copy constructor from a live [oo]. *)
Definition copied (oo : A) (s : state) : outcome positive :=
  let this := fresh (dom (objs s)) in
  let a := fresh (dom (heap s)) in
  let line := "Copy constructor" in
  if 0 <? size oo then
    if size oo <=? avail s then
      match storage (heap s) oo with
      | Some br =>
          Ok this (mkState (<[this := mkA (Some a) (size oo)]> (objs s))
                           (<[a := br]> (heap s))
                           (avail s - size oo) (cout s ++ [line]))
      | None => Undef
      end
    else Throw bad_alloc (set_cout (λ l, l ++ [line]) s)
  else
    Ok this (mkState (<[this := mkA None (size oo)]> (objs s)) (heap s) (avail s)
                     (cout s ++ [line])).

(** The state a destructor call leaves. *)
Definition destroyed (this : positive) (ot : A) (s : state) : state :=
  mkState (delete this (objs s)) (heap (freed ot s)) (avail (freed ot s))
          (cout s ++ ["Destructor"]).

(** Closed form of copy assignment between two distinct live objects. *)
Definition copy_assigned (this : positive) (ot oo : A) (s : state) : outcome positive :=
  let s1 := freed ot s in
  let a := fresh (dom (heap s1)) in
  let line := "Copy assignment operator" in
  if 0 <? size oo then
    if size oo <=? avail s1 then
      match storage (heap s) oo with
      | Some br =>
          Ok this (mkState (<[this := mkA (Some a) (size oo)]> (objs s))
                           (<[a := br]> (heap s1))
                           (avail s1 - size oo) (cout s ++ [line]))
      | None => Undef
      end
    else Throw bad_alloc (mkState (<[this := mkA (data ot) (size oo)]> (objs s))
                                  (heap s1) (avail s1) (cout s ++ [line]))
  else
    Ok this (mkState (<[this := mkA None (size oo)]> (objs s)) (heap s1) (avail s1)
                     (cout s ++ [line])).

Definition fmap_outcome {T U} (f : T → U) (r : outcome T) : outcome U :=
  match r with
  | Ok v s => Ok (f v) s
  | Throw e s => Throw e s
  | Undef => Undef
  end.

(** What every operation computes, in one table. *)
Definition closed (o : op) (s : state) : outcome value :=
  let fresh_this := fresh (dom (objs s)) in
  match o with
  | OpDefault =>
      Ok (VObj fresh_this)
         (mkState (<[fresh_this := mkA None 0]> (objs s)) (heap s) (avail s)
                  (cout s ++ ["Default constructor"]))
  | OpInt n => fmap_outcome VObj (built n "Parameterized constructor" s)
  | OpDouble d =>
      match static_cast_int d with
      | Some n => fmap_outcome VObj (built n "conversion constructor (double to A)" s)
      | None => Undef
      end
  | OpToInt this =>
      match objs s !! this with
      | Some x => Ok (VInt (size x))
                     (set_cout (λ l, l ++ ["Conversion operator (A to int)"]) s)
      | None => Undef
      end
  | OpCopy other =>
      match objs s !! other with
      | Some oo => fmap_outcome VObj (copied oo s)
      | None => Undef
      end
  | OpMove other =>
      match objs s !! other with
      | Some oo =>
          Ok (VObj fresh_this)
             (mkState (<[other := mkA None 0]> (<[fresh_this := oo]> (objs s)))
                      (heap s) (avail s) (cout s ++ ["Move constructor"]))
      | None =>
          if decide (fresh_this = other)
          then Ok (VObj fresh_this)
                  (mkState (<[fresh_this := mkA None 0]> (objs s)) (heap s) (avail s)
                           (cout s ++ ["Move constructor"]))
          else Undef
      end
  | OpCopyAssign this other =>
      if decide (this = other)
      then Ok (VObj this) (set_cout (λ l, l ++ ["Copy assignment operator"]) s)
      else match objs s !! this, objs s !! other with
           | Some ot, Some oo => fmap_outcome VObj (copy_assigned this ot oo s)
           | _, _ => Undef
           end
  | OpMoveAssign this other =>
      if decide (this = other)
      then Ok (VObj this) (set_cout (λ l, l ++ ["Move copy assignment operator"]) s)
      else match objs s !! this, objs s !! other with
           | Some ot, Some oo =>
               Ok (VObj this)
                  (mkState (<[other := ot]> (<[this := oo]> (objs s)))
                           (heap s) (avail s)
                           (cout s ++ ["Move copy assignment operator"]))
           | _, _ => Undef
           end
  | OpDestroy this =>
      match objs s !! this with
      | Some ot => Ok VUnit (destroyed this ot s)
      | None => Undef
      end
  end.

(** Every live object has a non-negative length. *)
Definition nonneg (m : gmap positive A) : Prop := map_Forall (λ _ o, 0 <= size o) m.

(** ** Example values *)

(** Two live objects: object 1 owns the block [[0, 0]], object 2 is empty. *)
Definition s_two : state :=
  mkState (<[2%positive := mkA None 0]> (<[1%positive := mkA (Some 1%positive) 2]> ∅))
          (<[1%positive := [Some 0; Some 0]]> ∅) 5 [].

(** The double [1e10]. *)
Definition d_1e10 : spec_float := S754_finite false 5242880000000000 (-19).

(** The number of [int]s an operation asks of the allocator. *)
Definition request (o : op) (s : state) : Z :=
  match o with
  | OpInt n => n
  | OpDouble d => default 0 (static_cast_int d)
  | OpCopy other => default 0 (size <$> objs s !! other)
  | OpCopyAssign this other =>
      if decide (this = other) then 0 else default 0 (size <$> objs s !! other)
  | _ => 0
  end.

(** Two owning objects and an allocator with a single [int] left. *)
Definition s_tight : state :=
  mkState (<[2%positive := mkA (Some 2%positive) 1]> (<[1%positive := mkA (Some 1%positive) 3]> ∅))
          (<[2%positive := [Some 7]]> (<[1%positive := [Some 0; Some 0; Some 0]]> ∅)) 1 [].

(** The operations that bring an object to life. *)
Definition is_constructor (o : op) : bool :=
  match o with
  | OpDefault | OpInt _ | OpDouble _ | OpCopy _ | OpMove _ => true
  | _ => false
  end.

(** The line an operation prints. *)
Definition label (o : op) : string :=
  match o with
  | OpDefault => "Default constructor"
  | OpInt _ => "Parameterized constructor"
  | OpDouble _ => "conversion constructor (double to A)"
  | OpToInt _ => "Conversion operator (A to int)"
  | OpCopy _ => "Copy constructor"
  | OpMove _ => "Move constructor"
  | OpCopyAssign _ _ => "Copy assignment operator"
  | OpMoveAssign _ _ => "Move copy assignment operator"
  | OpDestroy _ => "Destructor"
  end.

(** Every heap block is the storage of some live object. *)
Definition no_orphans (s : state) : Prop :=
  map_Forall (λ a _, map_Exists (λ _ o, data o = Some a) (objs s)) (heap s).

#[global] Instance no_orphans_dec s : Decision (no_orphans s).
Proof. unfold no_orphans. apply _. Defined.

(** The state an outcome ends in, if any. *)
Definition final {T} (r : outcome T) : option state :=
  match r with
  | Ok _ s | Throw _ s => Some s
  | Undef => None
  end.

(** The same store with [k] more [int]s at the allocator's disposal. *)
Definition more (k : Z) (s : state) : state := set_avail (λ m, m + k) s.

(** A computation whose successful runs are unaffected by spare memory. *)
Definition stable {T} (c : M T) : Prop :=
  ∀ k s v s', 0 <= k → wf s → c s = Ok v s' → wf s' ∧ c (more k s) = Ok v (more k s').

(** What [main] prints. *)
Definition main_output : list string :=
  ["TEST 1 START"; "Default constructor"; "Parameterized constructor";
   "conversion constructor (double to A)"; "TEST 1 END"; EmptyString;
   "TEST 2 START"; "conversion constructor (double to A)";
   "Conversion operator (A to int)"; "TEST 2 END"; EmptyString;
   "TEST 3 START"; "Parameterized constructor"; "Copy constructor";
   "Copy constructor"; "Move constructor"; "Move constructor"; "TEST 3 END"; EmptyString;
   "TEST 4 START"; "Parameterized constructor"; "Default constructor";
   "Copy assignment operator"; "Default constructor";
   "Move copy assignment operator"; "TEST 4 END"; EmptyString;
   "Destructor"; "Destructor"; "Destructor"; "Destructor"; "Destructor";
   "Destructor"; "Destructor"; "Destructor"; "Destructor"; "Destructor";
   "Destructor"; "Destructor"].

(** ** Proof support *)

Ltac mstep :=
  first [ rewrite lookup_insert_eq
        | rewrite lookup_insert_ne by done
        | rewrite insert_insert_eq
        | match goal with H : _ !! _ = Some _ |- _ => rewrite H end
        | progress simpl ].
Ltac mnorm := repeat mstep.

(** ** Properties *)

Lemma fresh_obj (m : gmap positive A) : m !! fresh (dom m) = None.
Proof. apply not_elem_of_dom, is_fresh. Qed.

Lemma fresh_block (h : gmap positive (list (option Z))) : h !! fresh (dom h) = None.
Proof. apply not_elem_of_dom, is_fresh. Qed.

Lemma state_eq s1 s2 :
  objs s1 = objs s2 → heap s1 = heap s2 → avail s1 = avail s2 → cout s1 = cout s2 →
  s1 = s2.
Proof. destruct s1, s2; simpl; congruence. Qed.

Lemma zero_fill_spec bound this a o n fuel : ∀ i s blk,
  (∀ s', objs s' = objs s → bound s' = Ok n s') →
  objs s !! this = Some o → data o = Some a →
  heap s !! a = Some blk → Z.of_nat (length blk) = n →
  0 <= i <= n → (Z.to_nat (n - i) <= fuel)%nat →
  zero_fill fuel bound this i s =
    Ok tt (set_heap (insert a (take (Z.to_nat i) blk
                               ++ replicate (Z.to_nat (n - i)) (Some 0))) s).
Proof.
  induction fuel as [|fuel IH]; intros i s blk Hb Ho Hd Hh Hlen Hi Hfuel.
  - assert (i = n) as -> by lia.
    simpl. unfold bind. rewrite (Hb s eq_refl), Z.ltb_irrefl. unfold ret.
    f_equal. apply state_eq; simpl; try done.
    rewrite Z.sub_diag, app_nil_r, take_ge by lia. by rewrite insert_id.
  - simpl. unfold bind at 1. rewrite (Hb s eq_refl).
    destruct (Z.ltb_spec i n) as [Hlt|Hge].
    + unfold bind, get_data, store_elem. rewrite Ho, Hd, Hh.
      rewrite (proj2 (andb_true_iff _ _)) by (split; [apply Z.leb_le | apply Z.ltb_lt]; lia).
      rewrite (IH (i + 1) _ (<[Z.to_nat i := Some 0]> blk)); simpl; try done.
      * f_equal. apply state_eq; simpl; try done.
        rewrite insert_insert_eq. f_equal.
        replace (Z.to_nat (i + 1)) with (S (Z.to_nat i)) by lia.
        replace (Z.to_nat (n - i)) with (S (Z.to_nat (n - (i + 1)))) by lia.
        rewrite (take_S_r _ _ (Some 0)).
        -- rewrite take_insert_ge by lia. by rewrite <- app_assoc.
        -- apply list_lookup_insert_eq. lia.
      * by rewrite lookup_insert_eq.
      * rewrite length_insert. lia.
      * lia.
      * lia.
    + assert (i = n) as -> by lia. unfold ret.
      f_equal. apply state_eq; simpl; try done.
      rewrite Z.sub_diag, app_nil_r, take_ge by lia. by rewrite insert_id.
Qed.

Lemma fresh_obj_ne (m : gmap positive A) o x : m !! o = Some x → fresh (dom m) ≠ o.
Proof. intros Ho E. pose proof (fresh_obj m) as Hf. rewrite E in Hf. congruence. Qed.

Lemma A_int_built n s : A_int n s = built n "Parameterized constructor" s.
Proof.
  unfold A_int, built, construct, bind, print. simpl.
  destruct (Z.ltb_spec 0 n) as [Hpos|Hneg].
  - unfold new_int_array. simpl.
    destruct (Z.leb_spec n (avail s)) as [Hle|Hgt].
    + rewrite (proj2 (Z.leb_le 0 n)) by lia. simpl.
      unfold set_data at 1. simpl. rewrite lookup_insert_eq. simpl.
      erewrite (zero_fill_spec (ret n) _ (fresh (dom (heap s))) (mkA (Some (fresh (dom (heap s)))) n) n);
        simpl; try done.
      * f_equal. apply state_eq; simpl; try done.
        -- by rewrite insert_insert_eq.
        -- rewrite insert_insert_eq. f_equal. by rewrite Z.sub_0_r.
      * by rewrite lookup_insert_eq.
      * by rewrite lookup_insert_eq.
      * rewrite length_replicate. lia.
      * lia.
      * lia.
    + rewrite andb_false_r. f_equal. apply state_eq; simpl; try done.
      by rewrite delete_insert_eq, delete_id by apply fresh_obj.
  - unfold set_data. simpl. rewrite lookup_insert_eq. simpl.
    f_equal. apply state_eq; simpl; try done. by rewrite insert_insert_eq.
Qed.

Lemma A_double_built d n s :
  static_cast_int d = Some n →
  A_double d s = built n "conversion constructor (double to A)" s.
Proof.
  intros Hd. unfold A_double. rewrite Hd.
  unfold built, construct, bind, print, get_size. simpl. rewrite lookup_insert_eq. simpl.
  destruct (Z.ltb_spec 0 n) as [Hpos|Hneg].
  - unfold new_int_array. simpl.
    destruct (Z.leb_spec n (avail s)) as [Hle|Hgt].
    + rewrite (proj2 (Z.leb_le 0 n)) by lia. simpl.
      unfold set_data at 1. simpl. rewrite lookup_insert_eq. simpl.
      erewrite (zero_fill_spec _ _ (fresh (dom (heap s))) (mkA (Some (fresh (dom (heap s)))) n) n);
        simpl; try done.
      * f_equal. apply state_eq; simpl; try done.
        -- by rewrite insert_insert_eq.
        -- rewrite insert_insert_eq. f_equal. by rewrite Z.sub_0_r.
      * intros s' Hs'. simpl in Hs'. rewrite Hs'. by rewrite lookup_insert_eq.
      * by rewrite lookup_insert_eq.
      * by rewrite lookup_insert_eq.
      * rewrite length_replicate. lia.
      * lia.
      * lia.
    + rewrite andb_false_r. f_equal. apply state_eq; simpl; try done.
      by rewrite delete_insert_eq, delete_id by apply fresh_obj.
  - unfold set_data. simpl. rewrite lookup_insert_eq. simpl.
    f_equal. apply state_eq; simpl; try done. by rewrite insert_insert_eq.
Qed.

Lemma sound_buffer_block h o :
  sound_buffer h o → 0 < size o →
  ∃ r br, data o = Some r ∧ h !! r = Some br ∧ Z.of_nat (length br) = size o.
Proof.
  unfold sound_buffer, storage. destruct (data o) as [r|] eqn:Hd.
  - destruct (h !! r) as [br|] eqn:Hr; [|done].
    intros [_ Hlen] _. exists r, br. split_and!; auto.
  - intros [Hiff _] Hpos. apply Hiff in Hpos. by destruct Hpos.
Qed.

Lemma A_copy_copied other oo s :
  objs s !! other = Some oo → sound_buffer (heap s) oo →
  A_copy other s = copied oo s.
Proof.
  intros Ho Hsound. 
  assert (fresh (dom (objs s)) ≠ other) as Hne.
  { intros E. pose proof (fresh_obj (objs s)) as Hf. rewrite E in Hf. congruence. }
  unfold A_copy, copied, construct, bind, print, get_size. simpl.
  rewrite Ho. simpl. rewrite lookup_insert_eq. simpl.
  destruct (Z.ltb_spec 0 (size oo)) as [Hpos|Hneg].
  - destruct (sound_buffer_block _ _ Hsound Hpos) as (r & br & Hd & Hr & Hlen).
    unfold new_int_array. simpl.
    destruct (Z.leb_spec (size oo) (avail s)) as [Hle|Hgt].
    + rewrite (proj2 (Z.leb_le 0 (size oo))) by lia. simpl.
      unfold set_data, get_data. simpl. rewrite lookup_insert_eq. simpl.
      rewrite lookup_insert_eq. simpl. rewrite insert_insert_eq.
      rewrite lookup_insert_ne, Ho, Hd by done.
      assert (fresh (dom (heap s)) ≠ r) as Hra.
      { intros E. pose proof (fresh_block (heap s)) as Hf. rewrite E in Hf. congruence. }
      simpl. rewrite !lookup_insert_eq. simpl.
      rewrite (lookup_insert_ne _ _ r) by done. rewrite Hr.
      rewrite Z.mod_mul, Z.div_mul by done. rewrite lookup_insert_eq.
      rewrite Z2Nat.id, length_replicate by lia.
      match goal with |- context [if ?c then _ else _] => assert (c = true) as -> end.
      { repeat (apply andb_true_intro; split);
          first [apply Z.leb_le | apply Z.eqb_eq]; unfold sizeof_int; lia. }
      unfold storage. rewrite Hd, Hr. f_equal. apply state_eq; simpl; try done.
      all: rewrite ?take_ge, ?drop_ge by (rewrite ?length_replicate; lia).
      all: by rewrite ?app_nil_r, ?insert_insert_eq.
    + rewrite andb_false_r. f_equal. apply state_eq; simpl; try done.
      by rewrite delete_insert_eq, delete_id by apply fresh_obj.
  - unfold set_data. simpl. rewrite lookup_insert_eq. simpl.
    f_equal. apply state_eq; simpl; try done. by rewrite insert_insert_eq.
Qed.

Lemma A_move_spec other oo s :
  objs s !! other = Some oo →
  A_move other s =
    Ok (fresh (dom (objs s)))
       (mkState (<[other := mkA None 0]> (<[fresh (dom (objs s)) := oo]> (objs s)))
                (heap s) (avail s) (cout s ++ ["Move constructor"])).
Proof.
  intros Ho. pose proof (fresh_obj_ne _ _ _ Ho) as Hne.
  unfold A_move, construct, bind, print, get_size, get_data, set_size, set_data.
  mnorm. f_equal. apply state_eq; mnorm; try done. by destruct oo.
Qed.

Lemma operator_assign_move_spec this other ot oo s :
  this ≠ other → objs s !! this = Some ot → objs s !! other = Some oo →
  operator_assign_move this other s =
    Ok this (mkState (<[other := ot]> (<[this := oo]> (objs s)))
                     (heap s) (avail s) (cout s ++ ["Move copy assignment operator"])).
Proof.
  intros Hne Ht Ho.
  unfold operator_assign_move, bind, print. simpl.
  rewrite decide_False by done.
  unfold bind, get_size, get_data, set_size, set_data, ret.
  mnorm. f_equal. apply state_eq; mnorm; try done. by destruct oo, ot.
Qed.

Lemma operator_assign_move_self this s :
  operator_assign_move this this s =
    Ok this (set_cout (λ l, l ++ ["Move copy assignment operator"]) s).
Proof.
  unfold operator_assign_move, bind, print. simpl. by rewrite decide_True.
Qed.

Lemma operator_assign_copy_self this s :
  operator_assign_copy this this s =
    Ok this (set_cout (λ l, l ++ ["Copy assignment operator"]) s).
Proof.
  unfold operator_assign_copy, bind, print. simpl. by rewrite decide_False by tauto.
Qed.

Lemma operator_int_spec this o s :
  objs s !! this = Some o →
  operator_int this s =
    Ok (size o) (set_cout (λ l, l ++ ["Conversion operator (A to int)"]) s).
Proof. intros Ho. unfold operator_int, bind, print, get_size. simpl. by rewrite Ho. Qed.

Lemma sound_buffer_storage h o : sound_buffer h o → is_Some (storage h o).
Proof. unfold sound_buffer. destruct (storage h o); [eauto | done]. Qed.

Lemma exclusive_ne (m : gmap positive A) i j oi oj r :
  exclusive m → m !! i = Some oi → m !! j = Some oj → i ≠ j →
  data oi = Some r → data oj ≠ Some r.
Proof.
  intros Hex Hi Hj Hne Hdi Hdj. apply Hne.
  apply (Hex i oi Hi j oj Hj); [rewrite Hdi; eauto | congruence].
Qed.

Lemma A_dtor_spec this ot s :
  objs s !! this = Some ot → is_Some (storage (heap s) ot) →
  A_dtor this s = Ok tt (destroyed this ot s).
Proof.
  intros Ht [blk Hblk]. unfold storage in Hblk.
  unfold A_dtor, destroyed, freed, bind, print, get_data, release. mnorm.
  destruct (data ot) as [b|] eqn:Hd; mnorm; done.
Qed.

Lemma operator_assign_copy_spec this other ot oo s :
  wf s → this ≠ other → objs s !! this = Some ot → objs s !! other = Some oo →
  operator_assign_copy this other s = copy_assigned this ot oo s.
Proof.
  intros [Hsound Hex] Hne Ht Ho.
  pose proof (Hsound _ _ Ht) as Hst. pose proof (Hsound _ _ Ho) as Hso. simpl in Hst, Hso.
  destruct (sound_buffer_storage _ _ Hst) as [blk Hblk]. unfold storage in Hblk.
  unfold operator_assign_copy, copy_assigned, bind, print. simpl.
  rewrite decide_True by done.
  unfold bind, get_data, get_size, set_size, set_data, ret. mnorm.
  set (s1 := freed ot s).
  assert (∀ r br, data oo = Some r → heap s !! r = Some br → heap s1 !! r = Some br) as Hkeep.
  { intros r br Hd Hr. unfold s1, freed. destruct (data ot) as [b|] eqn:Hdt; [|done].
    rewrite Hblk. simpl. rewrite lookup_delete_ne; [done|].
    intros ->. by apply (exclusive_ne _ _ _ _ _ _ Hex Ht Ho Hne Hdt). }
  assert (delete_array (data ot) (set_cout (λ l, l ++ ["Copy assignment operator"]) s)
          = Ok tt (set_cout (λ l, l ++ ["Copy assignment operator"]) s1)) as Hdel.
  { unfold s1, freed, delete_array. destruct (data ot) as [b|]; [|done]. simpl. by rewrite Hblk. }
  rewrite Hdel. mnorm.
  assert (objs s1 = objs s) as Ho1.
  { unfold s1, freed. destruct (data ot); [|done]. by destruct (heap s !! _). }
  assert (cout s1 = cout s) as Hc1.
  { unfold s1, freed. destruct (data ot); [|done]. by destruct (heap s !! _). }
  repeat first [rewrite Ho1 | rewrite Hc1 | mstep].
  destruct (Z.ltb_spec 0 (size oo)) as [Hpos|Hneg].
  - destruct (sound_buffer_block _ _ Hso Hpos) as (r & br & Hd & Hr & Hlen).
    pose proof (Hkeep _ _ Hd Hr) as Hr1.
    unfold new_int_array. simpl.
    destruct (Z.leb_spec (size oo) (avail s1)) as [Hle|Hgt].
    + rewrite (proj2 (Z.leb_le 0 (size oo))) by lia.
      assert (fresh (dom (heap s1)) ≠ r) as Hra.
      { intros E. pose proof (fresh_block (heap s1)) as Hf. rewrite E in Hf. congruence. }
      repeat first [rewrite Ho1 | rewrite Hc1 | mstep].
      unfold memcpy. rewrite Hd.
      repeat first [rewrite Ho1 | rewrite Hc1 | mstep].
      rewrite Z.mod_mul, Z.div_mul by done.
      rewrite Z2Nat.id, length_replicate by lia.
      match goal with |- context [if ?c then _ else _] => assert (c = true) as -> end.
      { repeat (apply andb_true_intro; split);
          first [apply Z.leb_le | apply Z.eqb_eq]; unfold sizeof_int; lia. }
      unfold storage. rewrite Hd, Hr. f_equal.
      apply state_eq; repeat first [rewrite Ho1 | rewrite Hc1 | mstep]; try done.
      rewrite ?take_ge, ?drop_ge by (rewrite ?length_replicate; lia).
      by rewrite ?app_nil_r.
    + rewrite andb_false_r. f_equal.
      apply state_eq; repeat first [rewrite Ho1 | rewrite Hc1 | mstep]; done.
  - repeat first [rewrite Ho1 | rewrite Hc1 | mstep]. f_equal.
    apply state_eq; repeat first [rewrite Ho1 | rewrite Hc1 | mstep]; done.
Qed.

(** *** Preservation of the invariants by the store updates *)

Lemma exclusive_alt (m : gmap positive A) :
  exclusive m ↔
  ∀ i j oi oj r, m !! i = Some oi → m !! j = Some oj →
                 data oi = Some r → data oj = Some r → i = j.
Proof.
  split.
  - intros Hex i j oi oj r Hi Hj Hdi Hdj.
    apply (Hex i oi Hi j oj Hj); [rewrite Hdi; eauto | congruence].
  - intros H i oi Hi j oj Hj [r Hr] Heq. apply (H i j oi oj r); congruence.
Qed.

Lemma sound_buffer_frame h h' o :
  (∀ a, data o = Some a → h' !! a = h !! a) → sound_buffer h o → sound_buffer h' o.
Proof.
  unfold sound_buffer, storage. intros Hfr. destruct (data o) as [a|]; [|done].
  by rewrite (Hfr a eq_refl).
Qed.

Lemma sound_buffer_null h n : n <= 0 → sound_buffer h (mkA None n).
Proof.
  intros Hn. unfold sound_buffer, storage. simpl. split; [split|].
  - by intros [? ?].
  - lia.
  - by intros [? ?].
Qed.

Lemma sound_buffer_owned h a n blk :
  h !! a = Some blk → 0 < n → Z.of_nat (length blk) = n → sound_buffer h (mkA (Some a) n).
Proof.
  intros Ha Hn Hlen. unfold sound_buffer, storage. simpl. rewrite Ha. split; [split|]; eauto.
Qed.

Lemma sound_buffer_live h o a : sound_buffer h o → data o = Some a → is_Some (h !! a).
Proof.
  unfold sound_buffer, storage. intros H Hd. rewrite Hd in H.
  destruct (h !! a); [eauto | done].
Qed.

Lemma wf_ext s s' : objs s' = objs s → heap s' = heap s → wf s → wf s'.
Proof. unfold wf. by intros -> ->. Qed.

Lemma wf_add_null s this n av co :
  wf s → objs s !! this = None → n <= 0 →
  wf (mkState (<[this := mkA None n]> (objs s)) (heap s) av co).
Proof.
  intros [Hsound Hex] Hfresh Hn. split; simpl.
  - apply map_Forall_insert; [done|]. split; [by apply sound_buffer_null | done].
  - apply exclusive_alt. intros i j oi oj r Hi Hj Hdi Hdj.
    apply lookup_insert_Some in Hi as [[<- <-]|[Hni Hi]]; [done|].
    apply lookup_insert_Some in Hj as [[<- <-]|[Hnj Hj]]; [done|].
    by apply (proj1 (exclusive_alt _) Hex i j oi oj r).
Qed.

Lemma wf_add_block s this a n blk av co :
  wf s → objs s !! this = None → heap s !! a = None →
  0 < n → Z.of_nat (length blk) = n →
  wf (mkState (<[this := mkA (Some a) n]> (objs s)) (<[a := blk]> (heap s)) av co).
Proof.
  intros [Hsound Hex] Hfresh Ha Hn Hlen.
  assert (∀ i oi, objs s !! i = Some oi → data oi ≠ Some a) as Hnot.
  { intros i oi Hi Hd. destruct (sound_buffer_live _ _ _ (Hsound i oi Hi) Hd) as [? ?].
    congruence. }
  split; simpl.
  - apply map_Forall_insert; [done|]. split.
    + apply (sound_buffer_owned _ _ _ blk); [apply lookup_insert_eq | done..].
    + intros i oi Hi. apply (sound_buffer_frame (heap s)); [|by apply (Hsound i)].
      intros b Hb. apply lookup_insert_ne. intros ->. by apply (Hnot i oi).
  - apply exclusive_alt. intros i j oi oj r Hi Hj Hdi Hdj.
    apply lookup_insert_Some in Hi as [[<- <-]|[Hni Hi]];
      apply lookup_insert_Some in Hj as [[<- <-]|[Hnj Hj]]; simpl in *; try done.
    + injection Hdi as <-. by destruct (Hnot j oj Hj).
    + injection Hdj as <-. by destruct (Hnot i oi Hi).
    + by apply (proj1 (exclusive_alt _) Hex i j oi oj r).
Qed.

Lemma freed_objs o s : objs (freed o s) = objs s.
Proof. unfold freed. destruct (data o); [|done]. by destruct (heap s !! _). Qed.

Lemma freed_cout o s : cout (freed o s) = cout s.
Proof. unfold freed. destruct (data o); [|done]. by destruct (heap s !! _). Qed.

Lemma freed_heap_other o s a : data o ≠ Some a → heap (freed o s) !! a = heap s !! a.
Proof.
  unfold freed. destruct (data o) as [b|]; [|done]. intros Hne.
  destruct (heap s !! b) eqn:Hb; [|done]. simpl. apply lookup_delete_ne. congruence.
Qed.

Lemma freed_heap_own o s a : sound_buffer (heap s) o → data o = Some a → heap (freed o s) !! a = None.
Proof.
  intros Hso Hd. destruct (sound_buffer_live _ _ _ Hso Hd) as [blk Hblk].
  unfold freed. rewrite Hd, Hblk. simpl. apply lookup_delete_eq.
Qed.

Lemma wf_destroy s this ot av co :
  wf s → objs s !! this = Some ot →
  wf (mkState (delete this (objs s)) (heap (freed ot s)) av co).
Proof.
  intros [Hsound Hex] Ht. split; simpl.
  - intros i oi Hi. apply lookup_delete_Some in Hi as [Hne Hi].
    apply (sound_buffer_frame (heap s)); [|by apply (Hsound i)].
    intros b Hb. apply freed_heap_other. intros Hd.
    apply Hne. by apply (proj1 (exclusive_alt _) Hex this i ot oi b).
  - apply exclusive_alt. intros i j oi oj r Hi Hj Hdi Hdj.
    apply lookup_delete_Some in Hi as [_ Hi]. apply lookup_delete_Some in Hj as [_ Hj].
    by apply (proj1 (exclusive_alt _) Hex i j oi oj r).
Qed.

Lemma wf_swap s this other ot oo av co :
  wf s → this ≠ other → objs s !! this = Some ot → objs s !! other = Some oo →
  wf (mkState (<[other := ot]> (<[this := oo]> (objs s))) (heap s) av co).
Proof.
  intros [Hsound Hex] Hne Ht Ho.
  pose proof (proj1 (exclusive_alt _) Hex) as Hex'.
  split; simpl.
  - intros i oi Hi.
    apply lookup_insert_Some in Hi as [[<- <-]|[Hni Hi]]; [by apply (Hsound this)|].
    apply lookup_insert_Some in Hi as [[<- <-]|[Hni' Hi]]; [by apply (Hsound other)|].
    by apply (Hsound i).
  - apply exclusive_alt. intros i j oi oj r Hi Hj Hdi Hdj.
    apply lookup_insert_Some in Hi as [[<- <-]|[Hni Hi]];
      [|apply lookup_insert_Some in Hi as [[<- <-]|[Hni' Hi]]];
      (apply lookup_insert_Some in Hj as [[<- <-]|[Hnj Hj]];
       [|apply lookup_insert_Some in Hj as [[<- <-]|[Hnj' Hj]]]); try done.
    all: match goal with
         | Hi : objs _ !! ?i = Some ?oi, Hj : objs _ !! ?j = Some ?oj,
           Hdi : data ?oi = Some ?r, Hdj : data ?oj = Some ?r |- _ =>
             pose proof (Hex' i j oi oj r Hi Hj Hdi Hdj); congruence
         end.
Qed.

(** *** Preservation by the operations *)

Lemma wf_set_cout f s : wf s → wf (set_cout f s).
Proof. by apply wf_ext. Qed.

Lemma wf_built n line s this s' : wf s → built n line s = Ok this s' → wf s'.
Proof.
  intros Hwf. unfold built.
  destruct (Z.ltb_spec 0 n) as [Hpos|Hneg].
  - destruct (n <=? avail s); [|done]. intros [= <- <-].
    apply wf_add_block; auto using fresh_obj, fresh_block.
    rewrite length_replicate. lia.
  - intros [= <- <-]. apply wf_add_null; auto using fresh_obj.
Qed.

Lemma wf_copied oo other s this s' :
  wf s → objs s !! other = Some oo → copied oo s = Ok this s' → wf s'.
Proof.
  intros Hwf Ho. unfold copied.
  destruct (Z.ltb_spec 0 (size oo)) as [Hpos|Hneg].
  - destruct (size oo <=? avail s); [|done].
    destruct (sound_buffer_block _ _ (proj1 Hwf _ _ Ho) Hpos) as (r & br & Hd & Hr & Hlen).
    unfold storage. rewrite Hd, Hr. intros [= <- <-].
    apply wf_add_block; auto using fresh_obj, fresh_block.
  - intros [= <- <-]. apply wf_add_null; auto using fresh_obj.
Qed.

Lemma wf_moved oo other s av co :
  wf s → objs s !! other = Some oo →
  wf (mkState (<[other := mkA None 0]> (<[fresh (dom (objs s)) := oo]> (objs s)))
              (heap s) av co).
Proof.
  intros Hwf Ho. pose proof (fresh_obj_ne _ _ _ Ho) as Hne.
  set (this := fresh (dom (objs s))) in *.
  assert (wf (mkState (<[this := mkA None 0]> (objs s)) (heap s) av co)) as Hwf1.
  { apply wf_add_null; [done | apply fresh_obj | lia]. }
  apply (wf_swap _ this other (mkA None 0) oo av co) in Hwf1; simpl; [| done | | ].
  - simpl in Hwf1. by rewrite insert_insert_eq in Hwf1.
  - apply lookup_insert_eq.
  - by rewrite lookup_insert_ne.
Qed.

Lemma wf_copy_assigned this other ot oo s r s' :
  wf s → this ≠ other → objs s !! this = Some ot → objs s !! other = Some oo →
  copy_assigned this ot oo s = Ok r s' → wf s'.
Proof.
  intros Hwf Hne Ht Ho.
  pose proof (wf_destroy s this ot (avail s) (cout s) Hwf Ht) as Hwd.
  assert (∀ a, data oo = Some a → heap (freed ot s) !! a = heap s !! a) as Hkeep.
  { intros a Hd. apply freed_heap_other. by apply (exclusive_ne _ _ _ _ _ _ (proj2 Hwf) Ho Ht). }
  unfold copy_assigned.
  destruct (Z.ltb_spec 0 (size oo)) as [Hpos|Hneg].
  - destruct (size oo <=? avail (freed ot s)); [|done].
    destruct (sound_buffer_block _ _ (proj1 Hwf _ _ Ho) Hpos) as (a & br & Hd & Hr & Hlen).
    unfold storage. rewrite Hd, Hr. intros [= <- <-].
    rewrite <- (insert_delete_eq (objs s)).
    exact (wf_add_block _ this _ _ br _ _ Hwd (lookup_delete_eq _ _)
             (fresh_block (heap (freed ot s))) Hpos Hlen).
  - intros [= <- <-]. rewrite <- (insert_delete_eq (objs s)).
    exact (wf_add_null _ this _ _ _ Hwd (lookup_delete_eq _ _) Hneg).
Qed.

(** *** The operations agree with the table *)

Lemma bind_ret_fmap {T U} (c : M T) (f : T → U) s :
  bind c (λ x, ret (f x)) s = fmap_outcome f (c s).
Proof. unfold bind, ret, fmap_outcome. by destruct (c s). Qed.

Lemma exec_closed o s : wf s → exec o s = closed o s.
Proof.
  intros Hwf. destruct o as [|n|d|this|other|other|this other|this other|this]; simpl;
    rewrite ?bind_ret_fmap.
  - done.
  - by rewrite A_int_built.
  - destruct (static_cast_int d) as [n|] eqn:Hd.
    + by rewrite (A_double_built _ _ _ Hd).
    + unfold A_double. by rewrite Hd.
  - destruct (objs s !! this) as [x|] eqn:Ht.
    + by rewrite (operator_int_spec _ _ _ Ht).
    + unfold operator_int, bind, print, get_size. simpl. by rewrite Ht.
  - destruct (objs s !! other) as [oo|] eqn:Ho.
    + by rewrite (A_copy_copied _ _ _ Ho (proj1 Hwf _ _ Ho)).
    + unfold A_copy, bind, get_size. by rewrite Ho.
  - destruct (objs s !! other) as [oo|] eqn:Ho.
    + by rewrite (A_move_spec _ _ _ Ho).
    + unfold A_move, construct, bind, print, get_size, get_data, set_size, set_data.
      destruct (decide (fresh (dom (objs s)) = other)) as [<-|Hne].
      * mnorm. f_equal. apply state_eq; mnorm; done.
      * mnorm. by rewrite Ho.
  - destruct (decide (this = other)) as [<-|Hne].
    + by rewrite operator_assign_copy_self.
    + destruct (objs s !! this) as [ot|] eqn:Ht.
      * destruct (objs s !! other) as [oo|] eqn:Ho.
        -- by rewrite (operator_assign_copy_spec _ _ _ _ _ Hwf Hne Ht Ho).
        -- unfold operator_assign_copy, bind, print. simpl. rewrite decide_True by done.
           unfold bind, get_data at 1. simpl. rewrite Ht.
           unfold delete_array, get_size.
           destruct (data ot) as [b|]; simpl; [destruct (heap s !! b); simpl|];
             by rewrite ?Ho.
      * unfold operator_assign_copy, bind, print. simpl. rewrite decide_True by done.
        unfold bind, get_data at 1. simpl. by rewrite Ht.
  - destruct (decide (this = other)) as [<-|Hne].
    + by rewrite operator_assign_move_self.
    + destruct (objs s !! this) as [ot|] eqn:Ht.
      * destruct (objs s !! other) as [oo|] eqn:Ho.
        -- by rewrite (operator_assign_move_spec _ _ _ _ _ Hne Ht Ho).
        -- unfold operator_assign_move, bind, print. simpl. rewrite decide_False by done.
           unfold bind, get_size, get_data. mnorm. by rewrite Ho.
      * unfold operator_assign_move, bind, print. simpl. rewrite decide_False by done.
        unfold bind, get_size. simpl. by rewrite Ht.
  - destruct (objs s !! this) as [ot|] eqn:Ht.
    + by rewrite (A_dtor_spec _ _ _ Ht (sound_buffer_storage _ _ (proj1 Hwf _ _ Ht))).
    + unfold A_dtor, bind, print, get_data. simpl. by rewrite Ht.
Qed.

(** *** The table preserves the invariants *)

Lemma fmap_outcome_Ok {T U} (f : T → U) (r : outcome T) v s' :
  fmap_outcome f r = Ok v s' → ∃ x, r = Ok x s' ∧ v = f x.
Proof. destruct r; simpl; [|done..]. intros [= <- <-]. eauto. Qed.

Lemma closed_wf o s v s' : wf s → closed o s = Ok v s' → wf s'.
Proof.
  intros Hwf. destruct o as [|n|d|this|other|other|this other|this other|this]; simpl.
  - intros [= _ <-]. exact (wf_add_null s _ 0 _ _ Hwf (fresh_obj _) ltac:(lia)).
  - intros (x & He & _)%fmap_outcome_Ok. by apply (wf_built _ _ _ _ _ Hwf He).
  - destruct (static_cast_int d) as [n|]; [|done].
    intros (x & He & _)%fmap_outcome_Ok. by apply (wf_built _ _ _ _ _ Hwf He).
  - destruct (objs s !! this); [|done]. intros [= _ <-]. by apply wf_set_cout.
  - destruct (objs s !! other) as [oo|] eqn:Ho; [|done].
    intros (x & He & _)%fmap_outcome_Ok. by apply (wf_copied _ _ _ _ _ Hwf Ho He).
  - destruct (objs s !! other) as [oo|] eqn:Ho.
    + intros [= _ <-]. by apply wf_moved.
    + case_decide; [|done]. intros [= _ <-].
      exact (wf_add_null s _ 0 _ _ Hwf (fresh_obj _) ltac:(lia)).
  - case_decide as Hne; [intros [= _ <-]; by apply wf_set_cout|].
    destruct (objs s !! this) as [ot|] eqn:Ht; [|done].
    destruct (objs s !! other) as [oo|] eqn:Ho; [|done].
    intros (x & He & _)%fmap_outcome_Ok.
    by apply (wf_copy_assigned _ _ _ _ _ _ _ Hwf Hne Ht Ho He).
  - case_decide as Hne; [intros [= _ <-]; by apply wf_set_cout|].
    destruct (objs s !! this) as [ot|] eqn:Ht; [|done].
    destruct (objs s !! other) as [oo|] eqn:Ho; [|done].
    intros [= _ <-]. by apply wf_swap.
  - destruct (objs s !! this) as [ot|] eqn:Ht; [|done].
    intros [= _ <-]. by apply (wf_destroy s this ot).
Qed.

Lemma valid_buffer_iff h o : valid_buffer h o ↔ sound_buffer h o ∧ 0 <= size o.
Proof.
  unfold valid_buffer, sound_buffer, storage.
  destruct (data o) as [a|] eqn:Hd.
  - destruct (h !! a) as [blk|]; [|tauto]. split.
    + intros (Hn & Hiff & Hlen). auto.
    + intros [[Hiff Hlen] Hn]. split_and!; eauto.
  - simpl. split.
    + intros (Hn & Hiff & Hlen). split_and!; [done | | done].
      intros [? ?]; done.
    + intros [[Hiff _] Hn]. split_and!; [done.. |].
      destruct (decide (0 < size o)) as [Hpos|Hnpos]; [|lia].
      apply Hiff in Hpos. by destruct Hpos.
Qed.

Lemma valid_iff s : valid s ↔ wf s ∧ nonneg (objs s).
Proof.
  unfold valid, wf, nonneg. split.
  - intros [Hv Hex]. split_and!; [|done|].
    + intros i o Hi. by apply valid_buffer_iff, (Hv i).
    + intros i o Hi. by apply (valid_buffer_iff (heap s)), (Hv i).
  - intros [[Hs Hex] Hn]. split; [|done].
    intros i o Hi. apply valid_buffer_iff. split; [by apply (Hs i) | by apply (Hn i)].
Qed.

Lemma nonneg_insert m i o : nonneg m → 0 <= size o → nonneg (<[i := o]> m).
Proof.
  intros Hm Ho j x Hj. apply lookup_insert_Some in Hj as [[_ <-]|[_ Hj]]; [done|].
  by apply (Hm j).
Qed.

Lemma nonneg_delete m i : nonneg m → nonneg (delete i m).
Proof. intros Hm j x Hj. apply lookup_delete_Some in Hj as [_ Hj]. by apply (Hm j). Qed.

Lemma built_nonneg n line s this s' :
  nonneg (objs s) → 0 <= n → built n line s = Ok this s' → nonneg (objs s').
Proof.
  intros Hm Hn. unfold built.
  destruct (0 <? n); [destruct (n <=? avail s); [|done]|];
    intros [= _ <-]; by apply nonneg_insert.
Qed.

Lemma closed_nonneg o s v s' :
  nonneg (objs s) → nonneg_args o → closed o s = Ok v s' → nonneg (objs s').
Proof.
  intros Hm Hargs. destruct o as [|n|d|this|other|other|this other|this other|this]; simpl.
  - intros [= _ <-]. by apply nonneg_insert.
  - intros (x & He & _)%fmap_outcome_Ok. by apply (built_nonneg _ _ _ _ _ Hm Hargs He).
  - destruct (static_cast_int d) as [n|] eqn:Hd; [|done].
    intros (x & He & _)%fmap_outcome_Ok.
    by apply (built_nonneg _ _ _ _ _ Hm (Hargs n Hd) He).
  - destruct (objs s !! this); [|done]. by intros [= _ <-].
  - destruct (objs s !! other) as [oo|] eqn:Ho; [|done].
    pose proof (Hm _ _ Ho) as Hoo. simpl in Hoo.
    intros (x & He & _)%fmap_outcome_Ok. revert He. unfold copied.
    destruct (0 <? size oo);
      [destruct (size oo <=? avail s); [destruct (storage _ _); [|done]|done]|];
      intros [= _ <-]; by apply nonneg_insert.
  - destruct (objs s !! other) as [oo|] eqn:Ho.
    + intros [= _ <-]. apply nonneg_insert; [|done]. apply nonneg_insert; [done|].
      by apply (Hm _ _ Ho).
    + case_decide; [|done]. intros [= _ <-]. by apply nonneg_insert.
  - case_decide as Hne; [by intros [= _ <-]|].
    destruct (objs s !! this) as [ot|] eqn:Ht; [|done].
    destruct (objs s !! other) as [oo|] eqn:Ho; [|done].
    pose proof (Hm _ _ Ho) as Hoo. simpl in Hoo.
    intros (x & He & _)%fmap_outcome_Ok. revert He. unfold copy_assigned.
    destruct (0 <? size oo);
      [destruct (size oo <=? avail _); [destruct (storage _ _); [|done]|done]|];
      intros [= _ <-]; by apply nonneg_insert.
  - case_decide as Hne; [by intros [= _ <-]|].
    destruct (objs s !! this) as [ot|] eqn:Ht; [|done].
    destruct (objs s !! other) as [oo|] eqn:Ho; [|done].
    intros [= _ <-]. apply nonneg_insert; [|by apply (Hm _ _ Ht)].
    apply nonneg_insert; [done | by apply (Hm _ _ Ho)].
  - destruct (objs s !! this) as [ot|] eqn:Ht; [|done].
    intros [= _ <-]. by apply nonneg_delete.
Qed.

(** ** The lifetime contract *)

(** Claim C1.  Moves exchange states.  For distinct live objects [c] and
    [b], move-assigning [b] into [c] leaves [c] with the length and storage
    [b] had and [b] with the length and storage [c] had, the heap being
    untouched.  Move-constructing from [b] gives a new object with [b]'s
    length and storage and leaves [b] with what the new object started with:
    its default member initialisers. *)
Theorem move_exchanges_states s c b oc ob :
  c ≠ b → objs s !! c = Some oc → objs s !! b = Some ob →
  (∃ s', operator_assign_move c b s = Ok c s'
         ∧ objs s' !! c = Some ob ∧ objs s' !! b = Some oc
         ∧ storage (heap s') ob = storage (heap s) ob
         ∧ storage (heap s') oc = storage (heap s) oc
         ∧ heap s' = heap s)
  ∧ (∃ c' s', A_move b s = Ok c' s'
         ∧ objs s !! c' = None
         ∧ objs s' !! c' = Some ob ∧ objs s' !! b = Some (mkA None 0)
         ∧ storage (heap s') ob = storage (heap s) ob
         ∧ heap s' = heap s).
Proof.
  intros Hne Hc Hb. split.
  - eexists. split; [by apply operator_assign_move_spec|]. simpl.
    rewrite lookup_insert_ne, !lookup_insert_eq by done. done.
  - pose proof (fresh_obj_ne _ _ _ Hb) as Hf.
    eexists _, _. split; [by apply A_move_spec|]. simpl.
    rewrite lookup_insert_ne, !lookup_insert_eq by done.
    split_and!; auto using fresh_obj.
Qed.

Lemma move_exchanges_states_witness :
  (∃ s', operator_assign_move 2 1 s_two = Ok 2%positive s'
         ∧ objs s' !! 2%positive = Some (mkA (Some 1%positive) 2)
         ∧ objs s' !! 1%positive = Some (mkA None 0)).
Proof.
  destruct (move_exchanges_states s_two 2 1 (mkA None 0) (mkA (Some 1%positive) 2))
    as [(s' & H1 & H2 & H3 & _) _]; [done | reflexivity | reflexivity |].
  exists s'. auto.
Defined.

(** [A(-1)] keeps [-1] as its length: [operator int] returns [-1], not
    [0]. *)
Lemma withLength_negative_not_empty :
  (∃ this s' s'', A_int (-1) (init 0) = Ok this s'
       ∧ objs s' !! this = Some (mkA None (-1))
       ∧ operator_int this s' = Ok (-1) s'')
  ∧ ¬ (∃ this s' s'', A_int (-1) (init 0) = Ok this s'
       ∧ operator_int this s' = Ok 0 s'').
Proof.
  split.
  - eexists _, _, _. split_and!; vm_compute; reflexivity.
  - intros (this & s' & s'' & H1 & H2).
    vm_compute in H1. injection H1 as <- <-. vm_compute in H2. discriminate.
Qed.

(** Claim C2, amended.  For [n <= 0] the constructor [A(int)] allocates
    nothing and cannot fail, the new object has no storage and records [n]
    itself as its length, which [operator int] returns; it coincides with
    the default constructor exactly when [n = 0]. *)
Theorem withLength_nonpositive n s :
  n <= 0 →
  ∃ this s', A_int n s = Ok this s'
    ∧ objs s !! this = None
    ∧ objs s' !! this = Some (mkA None n)
    ∧ heap s' = heap s ∧ avail s' = avail s
    ∧ (∃ s'', operator_int this s' = Ok n s'')
    ∧ (n = 0 → same_outcome (A_int n s) (A_default s)).
Proof.
  intros Hn. rewrite A_int_built. unfold built.
  rewrite (proj2 (Z.ltb_ge 0 n)) by done.
  eexists _, _. split; [reflexivity|]. simpl. rewrite lookup_insert_eq.
  split_and!; auto using fresh_obj.
  - eexists. apply (operator_int_spec _ (mkA None n)). simpl. apply lookup_insert_eq.
  - intros ->. by unfold same_store.
Qed.

Lemma withLength_nonpositive_witness :
  (-2 <= 0) ∧
  ∃ this s', A_int (-2) (init 4) = Ok this s'
    ∧ objs s' !! this = Some (mkA None (-2)) ∧ heap s' = ∅.
Proof.
  split; [lia|].
  destruct (withLength_nonpositive (-2) (init 4)) as (this & s' & H1 & _ & H3 & H4 & _);
    [lia|].
  exists this, s'. auto.
Defined.

(** [A(-1)] on the empty store, which satisfies the specification's
    invariant, returns a store that does not. *)
Lemma negative_length_breaks_validity :
  valid (init 0) ∧ ∃ v s', exec (OpInt (-1)) (init 0) = Ok v s' ∧ ¬ valid s'.
Proof.
  split; [compute_done|].
  eexists _, _. split; [vm_compute; reflexivity|]. compute_done.
Qed.

(** Claim C3, amended.  Every operation that returns preserves: storage is
    present exactly when the length is positive, it then has exactly
    [length] cells, and no block has two owners.  It preserves the
    non-negativity of all lengths as well provided no constructor is given a
    negative length. *)
Theorem operations_preserve_invariant o s v s' :
  exec o s = Ok v s' →
  (wf s → wf s') ∧ (valid s → nonneg_args o → valid s').
Proof.
  intros He. split.
  - intros Hwf. rewrite (exec_closed _ _ Hwf) in He. by apply (closed_wf o s v).
  - intros [Hwf Hnn]%valid_iff Hargs. rewrite (exec_closed _ _ Hwf) in He.
    apply valid_iff. split; [by apply (closed_wf o s v) | by apply (closed_nonneg o s v)].
Qed.

Lemma operations_preserve_invariant_witness :
  wf s_two ∧ valid s_two ∧
  ∃ v s', exec (OpCopyAssign 2 1) s_two = Ok v s' ∧ wf s' ∧ valid s'.
Proof.
  split; [compute_done|]. split; [compute_done|].
  eexists _, _. split; [vm_compute; reflexivity|].
  match goal with |- wf ?s' ∧ _ =>
    destruct (operations_preserve_invariant (OpCopyAssign 2 1) s_two (VObj 2) s')
      as [Hwf Hvalid]; [vm_compute; reflexivity|]
  end.
  split; [apply Hwf; compute_done | apply Hvalid; [compute_done | exact I]].
Defined.

(** Claim C4.  For [n > 0], when the allocator can supply [n] [int]s,
    [A(int)] returns a new object of length [n] whose storage has [n] cells,
    every one of them [0]. *)
Theorem withLength_positive n s :
  0 < n → n <= avail s →
  ∃ this o blk s', A_int n s = Ok this s'
    ∧ objs s !! this = None
    ∧ objs s' !! this = Some o
    ∧ size o = n
    ∧ storage (heap s') o = Some blk
    ∧ Z.of_nat (length blk) = n
    ∧ Forall (λ c, c = Some 0) blk.
Proof.
  intros Hpos Hle. rewrite A_int_built. unfold built.
  rewrite (proj2 (Z.ltb_lt 0 n)), (proj2 (Z.leb_le n (avail s))) by done.
  eexists _, _, _, _. split; [reflexivity|]. simpl.
  split_and!; [apply fresh_obj | apply lookup_insert_eq | done | | | ].
  - unfold storage. simpl. apply lookup_insert_eq.
  - rewrite length_replicate. lia.
  - apply Forall_replicate. done.
Qed.

Lemma withLength_positive_witness :
  0 < 3 ∧ 3 <= avail (init 10) ∧
  ∃ this o s', A_int 3 (init 10) = Ok this s'
    ∧ objs s' !! this = Some o ∧ size o = 3
    ∧ storage (heap s') o = Some [Some 0; Some 0; Some 0].
Proof.
  split; [lia|]. split; [simpl; lia|].
  destruct (withLength_positive 3 (init 10)) as (this & o & blk & s' & H1 & _ & H3 & H4 & H5 & H6 & H7);
    [lia | simpl; lia |].
  exists this, o, s'. split_and!; try done.
  rewrite H5. f_equal.
  destruct blk as [|c1 [|c2 [|c3 [|c4 blk]]]]; simpl in H6; try lia.
  apply Forall_cons in H7 as [-> H7]. apply Forall_cons in H7 as [-> H7].
  apply Forall_cons in H7 as [-> H7]. done.
Defined.

(** The conversion agrees with truncation toward zero wherever the result is
    an [int]. *)
Lemma static_cast_truncate d q :
  double_value d = Some q → in_int (truncate q) →
  static_cast_int d = Some (truncate q).
Proof.
  unfold in_int, truncate. destruct d as [sg|sg| |sg m e]; simpl; try done.
  - intros [= <-]. done.
  - intros [= <-].
    assert (∀ z, INT_MIN <= z <= INT_MAX →
                 (if (INT_MIN <=? z) && (z <=? INT_MAX) then Some z else None) = Some z)
      as Hrange.
    { intros z [H1 H2].
      by rewrite (proj2 (Z.leb_le _ _) H1), (proj2 (Z.leb_le _ _) H2). }
    destruct e as [|k|k]; simpl Qnum; simpl Qden; rewrite ?Z.quot_1_r; intros Hin.
    + simpl. rewrite <- (Hrange _ Hin). by destruct sg.
    + change (0 <=? Z.pos k) with true. cbv iota.
      rewrite Z.shiftl_mul_pow2 by lia. rewrite <- (Hrange _ Hin).
      destruct sg; [|done]. by rewrite <- Z.mul_opp_l.
    + change (0 <=? Z.neg k) with false. cbv iota.
      change (- Z.neg k) with (Z.pos k).
      rewrite Z.shiftr_div_pow2 by lia.
      rewrite Pos2Z.inj_pow in Hin |- *. change (Z.pos 2) with 2 in *.
      assert (0 < 2 ^ Z.pos k) as Hpow by (apply Z.pow_pos_nonneg; lia).
      rewrite <- (Hrange _ Hin). destruct sg.
      * change (Z.neg m) with (- Z.pos m).
        rewrite Z.quot_opp_l by lia. by rewrite Z.quot_div_nonneg by lia.
      * by rewrite Z.quot_div_nonneg by lia.
Qed.

(** Conversely, the conversion is defined only for a finite double whose
    truncation toward zero is an [int]. *)
Lemma static_cast_defined d n :
  static_cast_int d = Some n →
  ∃ q, double_value d = Some q ∧ truncate q = n ∧ in_int n.
Proof.
  unfold in_int, truncate. destruct d as [sg|sg| |sg m e]; simpl; try done.
  - intros [= <-]. eexists. split; [reflexivity|]. split; [done|]. by compute.
  - assert (∀ z, (if (INT_MIN <=? z) && (z <=? INT_MAX) then Some z else None) = Some n →
                 z = n ∧ INT_MIN <= n <= INT_MAX) as Hrange.
    { intros z. destruct (Z.leb_spec INT_MIN z), (Z.leb_spec z INT_MAX); simpl; try done.
      intros [= <-]. done. }
    intros H. eexists. split; [reflexivity|].
    destruct e as [|k|k]; simpl Qnum; simpl Qden; rewrite ?Z.quot_1_r.
    + simpl in H. apply Hrange in H as [<- Hin]. split; [by destruct sg|done].
    + revert H. change (0 <=? Z.pos k) with true. cbv iota.
      rewrite Z.shiftl_mul_pow2 by lia. intros [<- Hin]%Hrange.
      split; [|done]. destruct sg; [|done]. by rewrite <- Z.mul_opp_l.
    + revert H. change (0 <=? Z.neg k) with false. cbv iota.
      change (- Z.neg k) with (Z.pos k).
      rewrite Z.shiftr_div_pow2 by lia. intros [<- Hin]%Hrange.
      rewrite Pos2Z.inj_pow. change (Z.pos 2) with 2.
      assert (0 < 2 ^ Z.pos k) as Hpow by (apply Z.pow_pos_nonneg; lia).
      split; [|done]. destruct sg.
      * change (Z.neg m) with (- Z.pos m).
        rewrite Z.quot_opp_l by lia. by rewrite Z.quot_div_nonneg by lia.
      * by rewrite Z.quot_div_nonneg by lia.
Qed.

Lemma built_same n l1 l2 s : same_outcome (built n l1 s) (built n l2 s).
Proof.
  unfold built. destruct (0 <? n); [destruct (n <=? avail s)|]; by unfold same_outcome, same_store.
Qed.

(** [1e10] truncates to 10000000000, which is not an [int]: the conversion
    in [A(double)] is undefined, whereas [A(int)] has a defined outcome. *)
Lemma fromNumeric_out_of_range :
  ∃ q, double_value d_1e10 = Some q ∧ truncate q = 10000000000
       ∧ A_double d_1e10 (init 0) = Undef
       ∧ ¬ same_outcome (A_double d_1e10 (init 0)) (A_int (truncate q) (init 0)).
Proof.
  eexists. split; [reflexivity|]. split; [vm_compute; reflexivity|].
  split; [vm_compute; reflexivity|]. vm_compute. tauto.
Qed.

(** Claim C5, amended.  For a double [d] whose truncation toward zero is
    an [int], [A(double)] on [d] has the same outcome as [A(int)] on the
    truncation, up to the line printed. *)
Theorem fromNumeric_truncates d q s :
  double_value d = Some q → in_int (truncate q) →
  same_outcome (A_double d s) (A_int (truncate q) s).
Proof.
  intros Hq Hin. rewrite (A_double_built _ _ _ (static_cast_truncate _ _ Hq Hin)).
  rewrite A_int_built. apply built_same.
Qed.

Lemma fromNumeric_truncates_witness :
  double_value d_1_23 = Some (5539427541665710 # 4503599627370496)%Q
  ∧ truncate (5539427541665710 # 4503599627370496)%Q = 1
  ∧ same_outcome (A_double d_1_23 (init 10))
                 (A_int (truncate (5539427541665710 # 4503599627370496)%Q) (init 10)).
Proof.
  split; [vm_compute; reflexivity|]. split; [vm_compute; reflexivity|].
  apply (fromNumeric_truncates d_1_23 (5539427541665710 # 4503599627370496)%Q (init 10)).
  - vm_compute; reflexivity.
  - vm_compute. split; discriminate.
Defined.

(** Claim C6.  Copy construction from a live [b] (given enough memory when
    [b] is not empty) returns a new object of the same length whose storage
    is a fresh block with the same cells; [b] and its storage are unchanged,
    and a later store into the copy's storage leaves [b] and its cells as
    they were. *)
Theorem copy_is_deep s b ob :
  wf s → objs s !! b = Some ob → (0 < size ob → size ob <= avail s) →
  ∃ c oc s', A_copy b s = Ok c s'
    ∧ objs s !! c = None ∧ c ≠ b
    ∧ objs s' !! c = Some oc
    ∧ size oc = size ob
    ∧ storage (heap s') oc = storage (heap s) ob
    ∧ (∀ a, data oc = Some a → heap s !! a = None)
    ∧ objs s' !! b = Some ob
    ∧ storage (heap s') ob = storage (heap s) ob
    ∧ (∀ i v, 0 <= i < size ob → ∃ s'', store_elem (data oc) i v s' = Ok tt s'')
    ∧ (∀ i v s'', store_elem (data oc) i v s' = Ok tt s'' →
         objs s'' !! b = Some ob ∧ storage (heap s'') ob = storage (heap s) ob).
Proof.
  intros Hwf Hb Hmem.
  pose proof (proj1 Hwf _ _ Hb) as Hsound. simpl in Hsound.
  pose proof (fresh_obj_ne _ _ _ Hb) as Hne.
  rewrite (A_copy_copied _ _ _ Hb Hsound). unfold copied.
  destruct (Z.ltb_spec 0 (size ob)) as [Hpos|Hneg].
  - rewrite (proj2 (Z.leb_le _ _) (Hmem Hpos)).
    destruct (sound_buffer_block _ _ Hsound Hpos) as (r & br & Hd & Hr & Hlen).
    assert (fresh (dom (heap s)) ≠ r) as Hra.
    { intros E. pose proof (fresh_block (heap s)) as Hf. rewrite E in Hf. congruence. }
    unfold storage at 1. rewrite Hd, Hr.
    eexists _, (mkA (Some (fresh (dom (heap s)))) (size ob)), _.
    split; [reflexivity|]. simpl.
    rewrite lookup_insert_eq, lookup_insert_ne by done.
    unfold storage. simpl. rewrite Hd, lookup_insert_eq, lookup_insert_ne, Hr by done.
    split_and!; auto using fresh_obj.
    + intros a [= <-]. apply fresh_block.
    + intros i v Hi.
      rewrite (proj2 (Z.leb_le 0 i)), (proj2 (Z.ltb_lt i _)) by lia. eauto.
    + intros i v s''.
      destruct ((0 <=? i) && (i <? Z.of_nat (length br))); [|done].
      intros [= <-]. simpl. rewrite lookup_insert_ne by done.
      by rewrite lookup_insert_ne, lookup_insert_ne by done.
  - assert (data ob = None) as Hd.
    { destruct (data ob) as [r|] eqn:Hd; [|done].
      destruct (sound_buffer_storage _ _ Hsound) as [blk Hblk].
      unfold sound_buffer in Hsound. rewrite Hblk in Hsound.
      destruct Hsound as [Hiff _]. rewrite Hd in Hiff.
      assert (0 < size ob) by (apply Hiff; eauto). lia. }
    eexists _, (mkA None (size ob)), _. split; [reflexivity|]. simpl.
    rewrite lookup_insert_eq, lookup_insert_ne by done.
    unfold storage. simpl. rewrite Hd.
    split_and!; auto using fresh_obj; try done. intros i v Hi. lia.
Qed.

Lemma copy_is_deep_witness :
  wf s_two ∧ objs s_two !! 1%positive = Some (mkA (Some 1%positive) 2) ∧
  ∃ c oc s', A_copy 1 s_two = Ok c s' ∧ c ≠ 1%positive
    ∧ objs s' !! c = Some oc ∧ size oc = 2
    ∧ storage (heap s') oc = Some [Some 0; Some 0].
Proof.
  split; [compute_done|]. split; [reflexivity|].
  destruct (copy_is_deep s_two 1 (mkA (Some 1%positive) 2))
    as (c & oc & s' & H1 & _ & H3 & H4 & H5 & H6 & _);
    [compute_done | reflexivity | simpl; lia |].
  exists c, oc, s'. split_and!; done.
Defined.

(** Claim C7.  Copy-assigning and move-assigning an object to itself change
    neither the objects, nor the heap, nor the allocator, and return the
    object itself. *)
Theorem self_assignment_is_noop b s :
  (∃ s', operator_assign_copy b b s = Ok b s' ∧ same_store s s')
  ∧ (∃ s', operator_assign_move b b s = Ok b s' ∧ same_store s s').
Proof.
  split; eexists.
  - split; [apply operator_assign_copy_self | done].
  - split; [apply operator_assign_move_self | done].
Qed.

(** Claim C8.  [operator int] on a live object returns its [size] and
    changes nothing but the printed lines. *)
Theorem toNumeric_returns_length b o s :
  objs s !! b = Some o →
  ∃ s', operator_int b s = Ok (size o) s' ∧ same_store s s'.
Proof. intros Hb. eexists. split; [by apply operator_int_spec | done]. Qed.

Lemma toNumeric_returns_length_witness :
  objs s_two !! 1%positive = Some (mkA (Some 1%positive) 2) ∧
  ∃ s', operator_int 1 s_two = Ok 2 s' ∧ same_store s_two s'.
Proof.
  split; [reflexivity|].
  apply (toNumeric_returns_length 1 (mkA (Some 1%positive) 2) s_two). reflexivity.
Defined.


Lemma built_outcome n line s :
  (∃ this s', built n line s = Ok this s')
  ∨ (∃ s', built n line s = Throw bad_alloc s' ∧ avail s' < n).
Proof.
  unfold built. destruct (0 <? n); [destruct (Z.leb_spec n (avail s))|]; eauto.
Qed.

Lemma copied_outcome oo s :
  sound_buffer (heap s) oo →
  (∃ this s', copied oo s = Ok this s')
  ∨ (∃ s', copied oo s = Throw bad_alloc s' ∧ avail s' < size oo).
Proof.
  intros [blk Hblk]%sound_buffer_storage. unfold copied. rewrite Hblk.
  destruct (0 <? size oo); [destruct (Z.leb_spec (size oo) (avail s))|]; eauto.
Qed.

Lemma copy_assigned_outcome this ot oo s :
  sound_buffer (heap s) oo →
  (∃ r s', copy_assigned this ot oo s = Ok r s')
  ∨ (∃ s', copy_assigned this ot oo s = Throw bad_alloc s' ∧ avail s' < size oo).
Proof.
  intros [blk Hblk]%sound_buffer_storage. unfold copy_assigned. rewrite Hblk.
  destruct (0 <? size oo); [destruct (Z.leb_spec (size oo) (avail (freed ot s)))|]; eauto.
Qed.

(** Two failures that are not allocation failures.  Converting [1e10] in
    [A(double)] is undefined, on the empty store.  And after [A(3)], [A(1)]
    with four [int]s of memory, copy-assigning the first object to the second
    throws and leaves the second pointing to its released block: its
    destructor is then undefined. *)
Lemma failures_other_than_allocation :
  (∃ q, double_value d_1e10 = Some q ∧ wf (init 0)
        ∧ exec (OpDouble d_1e10) (init 0) = Undef)
  ∧ (∃ s1 s2 s3,
        exec (OpInt 3) (init 4) = Ok (VObj 1) s1
        ∧ exec (OpInt 1) s1 = Ok (VObj 2) s2
        ∧ exec (OpCopyAssign 2 1) s2 = Throw bad_alloc s3
        ∧ is_Some (objs s3 !! 2%positive)
        ∧ exec (OpDestroy 2) s3 = Undef).
Proof.
  split.
  - eexists. split; [reflexivity|]. split; [compute_done|]. vm_compute. reflexivity.
  - eexists _, _, _. split_and!; [vm_compute; reflexivity..| |vm_compute; reflexivity].
    vm_compute. eauto.
Qed.

(** Claim C9, amended.  On a well-formed store, with live operands and a
    double that converts to [int], no operation has undefined behaviour; the
    only exception is [bad_alloc], thrown only by the two length
    constructors, copy construction and copy assignment, and only when the
    allocator has fewer [int]s left than requested; all other operations
    return. *)
Theorem only_allocation_fails o s :
  wf s → operands_ok o s →
  exec o s ≠ Undef
  ∧ (∀ e s', exec o s = Throw e s' →
       e = bad_alloc ∧ allocating o = true ∧ avail s' < request o s)
  ∧ (allocating o = false → ∃ v s', exec o s = Ok v s').
Proof.
  intros Hwf Hok. rewrite (exec_closed _ _ Hwf).
  destruct o as [|n|d|this|other|other|this other|this other|this]; simpl in *.
  - split_and!; [done | done | eauto].
  - destruct (built_outcome n "Parameterized constructor" s)
      as [(x & s1 & ->)|(s1 & -> & Hlt)]; simpl;
      (split_and!; [done | | done]); [done|].
    by intros e s' [= <- <-].
  - destruct Hok as [n Hn]. rewrite Hn. simpl.
    destruct (built_outcome n "conversion constructor (double to A)" s)
      as [(x & s1 & ->)|(s1 & -> & Hlt)]; simpl;
      (split_and!; [done | | done]); [done|].
    by intros e s' [= <- <-].
  - destruct Hok as [x ->]. split_and!; [done | done | eauto].
  - destruct Hok as [oo Ho]. rewrite Ho. simpl.
    destruct (copied_outcome oo s (proj1 Hwf _ _ Ho))
      as [(x & s1 & ->)|(s1 & -> & Hlt)]; simpl;
      (split_and!; [done | | done]); [done|].
    by intros e s' [= <- <-].
  - destruct Hok as [oo ->]. split_and!; [done | done | eauto].
  - destruct Hok as [[ot Ht] [oo Ho]]. case_decide as Hne.
    + split_and!; [done | done | done].
    + rewrite Ht, Ho. simpl.
      destruct (copy_assigned_outcome this ot oo s (proj1 Hwf _ _ Ho))
        as [(x & s1 & ->)|(s1 & -> & Hlt)]; simpl;
        (split_and!; [done | | done]); [done|].
      by intros e s' [= <- <-].
  - destruct Hok as [[ot Ht] [oo Ho]]. rewrite Ht, Ho.
    case_decide; split_and!; try done; eauto.
  - destruct Hok as [ot ->]. split_and!; [done | done | eauto].
Qed.

Lemma only_allocation_fails_witness :
  wf s_tight ∧ operands_ok (OpCopy 1) s_tight ∧ operands_ok (OpDestroy 1) s_tight
  ∧ (∃ s', exec (OpCopy 1) s_tight = Throw bad_alloc s'
           ∧ allocating (OpCopy 1) = true
           ∧ avail s' < request (OpCopy 1) s_tight)
  ∧ (∃ v s', exec (OpDestroy 1) s_tight = Ok v s').
Proof.
  split; [compute_done|]. split; [by eexists|]. split; [by eexists|].
  split.
  - destruct (only_allocation_fails (OpCopy 1) s_tight) as (_ & Hthrow & _);
      [compute_done | by eexists |].
    eexists.
    match goal with |- ?E ∧ _ => assert E as He by (vm_compute; reflexivity) end.
    split; [exact He|]. exact (proj2 (Hthrow _ _ He)).
  - destruct (only_allocation_fails (OpDestroy 1) s_tight) as (_ & _ & Htotal);
      [compute_done | by eexists |].
    exact (Htotal eq_refl).
Defined.

(** Claim C10.  Move construction from a live [b] leaves [b] with length
    [0] and no storage, the new object holding what [b] held. *)
Theorem move_construct_empties_source b ob s :
  objs s !! b = Some ob →
  ∃ c s', A_move b s = Ok c s'
    ∧ objs s' !! c = Some ob
    ∧ ∃ ob', objs s' !! b = Some ob' ∧ size ob' = 0 ∧ data ob' = None.
Proof.
  intros Hb. pose proof (fresh_obj_ne _ _ _ Hb) as Hne.
  eexists _, _. split; [by apply A_move_spec|]. simpl.
  rewrite lookup_insert_ne, !lookup_insert_eq by done. eauto.
Qed.

Lemma move_construct_empties_source_witness :
  objs s_two !! 1%positive = Some (mkA (Some 1%positive) 2) ∧
  ∃ c s', A_move 1 s_two = Ok c s'
    ∧ objs s' !! c = Some (mkA (Some 1%positive) 2)
    ∧ ∃ ob', objs s' !! 1%positive = Some ob' ∧ size ob' = 0 ∧ data ob' = None.
Proof.
  split; [reflexivity|].
  apply (move_construct_empties_source 1 (mkA (Some 1%positive) 2) s_two). reflexivity.
Defined.

(** ** Destruction, round trips and copy assignment *)

Lemma freed_avail o s :
  sound_buffer (heap s) o → avail (freed o s) = avail s + Z.max 0 (size o).
Proof.
  intros Hso. unfold freed. destruct (data o) as [b|] eqn:Hd.
  - destruct (sound_buffer_live _ _ _ Hso Hd) as [blk Hblk]. rewrite Hblk. simpl.
    unfold sound_buffer, storage in Hso. rewrite Hd, Hblk in Hso.
    destruct Hso as [Hiff Hlen]. rewrite Hlen by eauto.
    assert (0 < size o) by (apply Hiff; eauto). lia.
  - unfold sound_buffer, storage in Hso. rewrite Hd in Hso. destruct Hso as [Hiff _].
    destruct (decide (0 < size o)) as [Hpos|Hn]; [|lia].
    apply Hiff in Hpos. by destruct Hpos.
Qed.

Lemma storage_freed_other s i j oi oj :
  exclusive (objs s) → objs s !! i = Some oi → objs s !! j = Some oj → i ≠ j →
  storage (heap (freed oi s)) oj = storage (heap s) oj.
Proof.
  intros Hex Hi Hj Hne. unfold storage. destruct (data oj) as [a|] eqn:Hd; [|done].
  apply freed_heap_other. by apply (exclusive_ne _ _ _ _ _ _ Hex Hj Hi).
Qed.

Lemma storage_insert_fresh (h : gmap positive (list (option Z))) o blk br :
  storage h o = Some blk → storage (<[fresh (dom h) := br]> h) o = Some blk.
Proof.
  unfold storage. destruct (data o) as [a|]; [|done]. intros Ha.
  rewrite lookup_insert_ne; [done|]. intros E.
  pose proof (fresh_block h) as Hf. rewrite E in Hf. congruence.
Qed.

(** The destructor of a live object returns, ends the object, releases its
    block, hands its cells back to the allocator, and leaves every other
    object and its storage as they were. *)
Theorem destructor_releases s this ot :
  wf s → objs s !! this = Some ot →
  ∃ s', A_dtor this s = Ok tt s'
    ∧ objs s' = delete this (objs s)
    ∧ (∀ a, data ot = Some a → heap s' !! a = None)
    ∧ (∀ j oj, j ≠ this → objs s !! j = Some oj →
         objs s' !! j = Some oj ∧ storage (heap s') oj = storage (heap s) oj)
    ∧ avail s' = avail s + Z.max 0 (size ot)
    ∧ wf s'.
Proof.
  intros Hwf Ht. pose proof (proj1 Hwf _ _ Ht) as Hso. simpl in Hso.
  exists (destroyed this ot s).
  split; [by apply A_dtor_spec, sound_buffer_storage|].
  unfold destroyed. simpl. split_and!.
  - done.
  - intros a Hd. by apply freed_heap_own.
  - intros j oj Hne Hj. split; [by rewrite lookup_delete_ne|].
    by apply (storage_freed_other s this j ot oj (proj2 Hwf)).
  - by apply freed_avail.
  - by apply (wf_destroy s this ot).
Qed.

Lemma destructor_releases_witness :
  wf s_two ∧ ∃ s', A_dtor 1 s_two = Ok tt s'
    ∧ heap s' !! 1%positive = None ∧ avail s' = 7
    ∧ objs s' !! 2%positive = Some (mkA None 0).
Proof.
  split; [compute_done|].
  destruct (destructor_releases s_two 1 (mkA (Some 1%positive) 2))
    as (s' & H1 & H2 & H3 & H4 & H5 & _); [compute_done | reflexivity |].
  exists s'. split_and!; [done | by apply H3 | exact H5 | ].
  by apply (H4 2%positive (mkA None 0)).
Defined.

Lemma delete_fresh_insert_objs (m : gmap positive A) x :
  delete (fresh (dom m)) (<[fresh (dom m) := x]> m) = m.
Proof. rewrite delete_insert_eq. apply delete_id, fresh_obj. Qed.

Lemma delete_fresh_insert_heap (h : gmap positive (list (option Z))) x :
  delete (fresh (dom h)) (<[fresh (dom h) := x]> h) = h.
Proof. rewrite delete_insert_eq. apply delete_id, fresh_block. Qed.

Lemma built_then_destroyed n line s this s1 :
  built n line s = Ok this s1 →
  ∃ s2, A_dtor this s1 = Ok tt s2 ∧ same_store s s2.
Proof.
  unfold built. destruct (Z.ltb_spec 0 n) as [Hpos|Hneg].
  - destruct (n <=? avail s); [|done]. intros [= <- <-].
    eexists. split.
    + apply (A_dtor_spec _ (mkA (Some (fresh (dom (heap s)))) n)); simpl.
      * apply lookup_insert_eq.
      * unfold storage. simpl. rewrite lookup_insert_eq. eauto.
    + unfold destroyed, freed, same_store. simpl. rewrite lookup_insert_eq. simpl.
      rewrite delete_fresh_insert_objs, delete_fresh_insert_heap, length_replicate.
      split_and!; [done | done | lia].
  - intros [= <- <-]. eexists. split.
    + apply (A_dtor_spec _ (mkA None n)); simpl; [apply lookup_insert_eq | by eexists].
    + unfold destroyed, freed, same_store. simpl.
      by rewrite delete_fresh_insert_objs.
Qed.

(** Constructing an object (by default, from a length, from a double or by
    copy) and destroying it at once restores the objects, the heap and the
    allocator: nothing leaks. *)
Theorem construct_then_destroy_restores o s this s1 :
  wf s → match o with OpDefault | OpInt _ | OpDouble _ | OpCopy _ => True | _ => False end →
  exec o s = Ok (VObj this) s1 →
  ∃ s2, A_dtor this s1 = Ok tt s2 ∧ same_store s s2.
Proof.
  intros Hwf Hctor. rewrite (exec_closed _ _ Hwf).
  destruct o as [|n|d|?|other|?|? ?|? ?|?]; try done; simpl.
  - intros [= <- <-]. eexists. split.
    + apply (A_dtor_spec _ (mkA None 0)); simpl; [apply lookup_insert_eq | by eexists].
    + unfold destroyed, freed, same_store. simpl. by rewrite delete_fresh_insert_objs.
  - intros (x & He & [= <-])%fmap_outcome_Ok. by apply (built_then_destroyed _ _ _ _ _ He).
  - destruct (static_cast_int d); [|done].
    intros (x & He & [= <-])%fmap_outcome_Ok. by apply (built_then_destroyed _ _ _ _ _ He).
  - destruct (objs s !! other) as [oo|] eqn:Ho; [|done].
    intros (x & He & [= <-])%fmap_outcome_Ok. revert He. unfold copied.
    destruct (Z.ltb_spec 0 (size oo)) as [Hpos|Hneg].
    + destruct (size oo <=? avail s); [|done].
      destruct (sound_buffer_block _ _ (proj1 Hwf _ _ Ho) Hpos) as (r & br & Hd & Hr & Hlen).
      unfold storage. rewrite Hd, Hr. intros [= <- <-].
      eexists. split.
      * apply (A_dtor_spec _ (mkA (Some (fresh (dom (heap s)))) (size oo))); simpl.
        -- apply lookup_insert_eq.
        -- unfold storage. simpl. rewrite lookup_insert_eq. eauto.
      * unfold destroyed, freed, same_store. simpl. rewrite lookup_insert_eq. simpl.
        rewrite delete_fresh_insert_objs, delete_fresh_insert_heap.
        split_and!; [done | done | lia].
    + intros [= <- <-]. eexists. split.
      * apply (A_dtor_spec _ (mkA None (size oo))); simpl; [apply lookup_insert_eq | by eexists].
      * unfold destroyed, freed, same_store. simpl. by rewrite delete_fresh_insert_objs.
Qed.

Lemma construct_then_destroy_restores_witness :
  ∃ this s1 s2, exec (OpCopy 1) s_two = Ok (VObj this) s1
    ∧ A_dtor this s1 = Ok tt s2 ∧ same_store s_two s2.
Proof.
  eexists _, _. 
  match goal with |- ∃ s2, ?E ∧ _ => assert E as He by (vm_compute; reflexivity) end.
  destruct (construct_then_destroy_restores (OpCopy 1) s_two _ _ ltac:(compute_done) I He)
    as (s2 & H1 & H2).
  exists s2. done.
Defined.

(** Copy assignment between distinct live objects, given the memory, makes
    the target a deep copy of the source: same length, same cells in a block
    of its own; the target's old block is handed back first, and every other
    object, the source included, keeps its state and storage. *)
Theorem copy_assign_is_deep s this other ot oo :
  wf s → this ≠ other → objs s !! this = Some ot → objs s !! other = Some oo →
  (0 < size oo → size oo <= avail s + Z.max 0 (size ot)) →
  ∃ nt s', operator_assign_copy this other s = Ok this s'
    ∧ objs s' !! this = Some nt
    ∧ size nt = size oo
    ∧ storage (heap s') nt = storage (heap s) oo
    ∧ (∀ a, data nt = Some a → data oo ≠ Some a)
    ∧ (∀ j oj, j ≠ this → objs s !! j = Some oj →
         objs s' !! j = Some oj ∧ storage (heap s') oj = storage (heap s) oj)
    ∧ avail s' = avail s + Z.max 0 (size ot) - Z.max 0 (size oo)
    ∧ wf s'.
Proof.
  intros Hwf Hne Ht Ho Hmem.
  pose proof (proj1 Hwf _ _ Ht) as Hst. pose proof (proj1 Hwf _ _ Ho) as Hso.
  simpl in Hst, Hso.
  pose proof (freed_avail ot s Hst) as Hav.
  pose proof (operator_assign_copy_spec _ _ _ _ _ Hwf Hne Ht Ho) as Hspec.
  assert (∀ j oj, j ≠ this → objs s !! j = Some oj →
            storage (heap (freed ot s)) oj = storage (heap s) oj) as Hframe.
  { intros j oj Hj Hoj. by apply (storage_freed_other s this j ot oj (proj2 Hwf)). }
  destruct (sound_buffer_storage _ _ Hso) as [br Hbr].
  assert (∃ r s', copy_assigned this ot oo s = Ok r s') as (r & s' & Hca).
  { destruct (copy_assigned_outcome this ot oo s Hso) as [?|(s1 & Hthrow & Hlt)]; [done|].
    exfalso. revert Hthrow Hlt. unfold copy_assigned. rewrite Hbr.
    destruct (Z.ltb_spec 0 (size oo));
      [destruct (Z.leb_spec (size oo) (avail (freed ot s)))|]; try done.
    intros [= <-]. simpl. lia. }
  pose proof (wf_copy_assigned _ _ _ _ _ _ _ Hwf Hne Ht Ho Hca) as Hwf'.
  pose proof Hca as Hshape. unfold copy_assigned in Hshape. rewrite Hbr in Hshape.
  destruct (Z.ltb_spec 0 (size oo)) as [Hpos|Hneg].
  - destruct (size oo <=? avail (freed ot s)); [|done]. injection Hshape as <- <-.
    exists (mkA (Some (fresh (dom (heap (freed ot s))))) (size oo)). eexists.
    split; [by rewrite Hspec|]. simpl. rewrite lookup_insert_eq.
    split_and!; try done.
    + unfold storage at 1. simpl. by rewrite lookup_insert_eq.
    + simpl. intros a [= <-] Hd.
      assert (heap (freed ot s) !! fresh (dom (heap (freed ot s))) = Some br) as Hf.
      { rewrite <- Hbr. rewrite <- (Hframe other oo) by done. unfold storage. by rewrite Hd. }
      by rewrite fresh_block in Hf.
    + intros j oj Hj Hoj. rewrite lookup_insert_ne by done. split; [done|].
      rewrite <- (Hframe j oj Hj Hoj).
      destruct (storage (heap (freed ot s)) oj) as [blk|] eqn:Hblk.
      * by apply storage_insert_fresh.
      * rewrite (Hframe j oj Hj Hoj) in Hblk.
        destruct (sound_buffer_storage _ _ (proj1 Hwf _ _ Hoj)) as [? ?]. simpl in *.
        congruence.
    + lia.
  - injection Hshape as <- <-.
    exists (mkA None (size oo)). eexists.
    split; [by rewrite Hspec|]. simpl. rewrite lookup_insert_eq.
    split_and!; try done.
    + unfold storage. simpl.
      destruct (data oo) as [a|] eqn:Hd; [|done].
      destruct (sound_buffer_live _ _ _ Hso Hd) as [blk Hblk].
      unfold sound_buffer, storage in Hso. rewrite Hd, Hblk in Hso.
      destruct Hso as [Hiff _]. assert (0 < size oo) by (apply Hiff; eauto). lia.
    + intros j oj Hj Hoj. rewrite lookup_insert_ne by done. split; [done|].
      by apply (Hframe j).
    + lia.
Qed.

Lemma copy_assign_is_deep_witness :
  wf s_two ∧
  ∃ nt s', operator_assign_copy 2 1 s_two = Ok 2%positive s'
    ∧ objs s' !! 2%positive = Some nt ∧ size nt = 2
    ∧ storage (heap s') nt = Some [Some 0; Some 0]
    ∧ avail s' = 3.
Proof.
  split; [compute_done|].
  destruct (copy_assign_is_deep s_two 2 1 (mkA None 0) (mkA (Some 1%positive) 2))
    as (nt & s' & H1 & H2 & H3 & H4 & _ & _ & H7 & _);
    [compute_done | done | reflexivity | reflexivity | simpl; lia |].
  exists nt, s'. split_and!; done.
Defined.

(** When the allocation in copy assignment fails, the target has already
    released its block and taken the source's length: it is left pointing to
    a released block, the store is no longer well formed, and running the
    target's destructor is undefined (a second [delete[]]). *)
Theorem copy_assign_failure_dangles s this other ot oo b :
  wf s → this ≠ other → objs s !! this = Some ot → objs s !! other = Some oo →
  data ot = Some b → 0 < size oo → avail s + size ot < size oo →
  ∃ s', operator_assign_copy this other s = Throw bad_alloc s'
    ∧ objs s' !! this = Some (mkA (Some b) (size oo))
    ∧ heap s' !! b = None
    ∧ ¬ wf s'
    ∧ A_dtor this s' = Undef
    ∧ (∀ j oj, j ≠ this → objs s !! j = Some oj →
         objs s' !! j = Some oj ∧ storage (heap s') oj = storage (heap s) oj).
Proof.
  intros Hwf Hne Ht Ho Hb Hpo Hmem.
  pose proof (proj1 Hwf _ _ Ht) as Hst. pose proof (proj1 Hwf _ _ Ho) as Hso.
  simpl in Hst, Hso.
  pose proof (freed_avail ot s Hst) as Hav.
  assert (0 < size ot) as Hpt.
  { destruct (sound_buffer_live _ _ _ Hst Hb) as [blk Hblk].
    unfold sound_buffer, storage in Hst. rewrite Hb, Hblk in Hst.
    destruct Hst as [Hiff _]. apply Hiff. eauto. }
  rewrite (operator_assign_copy_spec _ _ _ _ _ Hwf Hne Ht Ho). unfold copy_assigned.
  rewrite (proj2 (Z.ltb_lt 0 (size oo))) by lia.
  rewrite (proj2 (Z.leb_gt (size oo) (avail (freed ot s)))) by lia.
  eexists. split; [reflexivity|]. simpl. rewrite lookup_insert_eq, Hb.
  assert (heap (freed ot s) !! b = None) as Hgone by (by apply freed_heap_own).
  split_and!; try done.
  - intros [Hsound _]. simpl in Hsound.
    specialize (Hsound this (mkA (Some b) (size oo)) (lookup_insert_eq _ _ _)).
    unfold sound_buffer, storage in Hsound. simpl in Hsound. by rewrite Hgone in Hsound.
  - unfold A_dtor, bind, print, get_data, delete_array. simpl.
    rewrite lookup_insert_eq. simpl. by rewrite Hgone.
  - intros j oj Hj Hoj. rewrite lookup_insert_ne by done. split; [done|].
    by apply (storage_freed_other s this j ot oj (proj2 Hwf)).
Qed.

Lemma copy_assign_failure_dangles_witness :
  wf s_tight ∧
  ∃ s', operator_assign_copy 2 1 s_tight = Throw bad_alloc s'
    ∧ objs s' !! 2%positive = Some (mkA (Some 2%positive) 3)
    ∧ heap s' !! 2%positive = None
    ∧ A_dtor 2 s' = Undef.
Proof.
  split; [compute_done|].
  destruct (copy_assign_failure_dangles s_tight 2 1 (mkA (Some 2%positive) 1)
              (mkA (Some 1%positive) 3) 2)
    as (s' & H1 & H2 & H3 & _ & H5 & _);
    [compute_done | done | reflexivity | reflexivity | reflexivity | simpl; lia
    | simpl; lia |].
  exists s'. done.
Defined.

(** ** Failure, moves and leaks *)

(** A constructor that throws leaves the objects, the heap and the allocator
    exactly as they were: no object comes to life and no block stays
    allocated. *)
Theorem constructor_failure_changes_nothing o s e s' :
  wf s → is_constructor o = true → exec o s = Throw e s' → same_store s s'.
Proof.
  intros Hwf Hctor. rewrite (exec_closed _ _ Hwf).
  assert (∀ n line, fmap_outcome VObj (built n line s) = Throw e s' → same_store s s') as Hb.
  { intros n line. unfold built.
    destruct (0 <? n); [destruct (n <=? avail s)|]; simpl; try done.
    by intros [= _ <-]. }
  destruct o as [|n|d|?|other|other|? ?|? ?|?]; try done; simpl.
  - apply Hb.
  - destruct (static_cast_int d); [apply Hb | done].
  - destruct (objs s !! other) as [oo|]; [|done]. unfold copied.
    destruct (0 <? size oo);
      [destruct (size oo <=? avail s); [destruct (storage _ _)|]|]; simpl; try done.
    by intros [= _ <-].
  - destruct (objs s !! other); [done|]. by case_decide.
Qed.

Lemma constructor_failure_changes_nothing_witness :
  ∃ s', exec (OpCopy 1) s_tight = Throw bad_alloc s' ∧ same_store s_tight s'.
Proof.
  eexists.
  match goal with |- ?E ∧ _ => assert E as He by (vm_compute; reflexivity) end.
  split; [exact He|].
  exact (constructor_failure_changes_nothing (OpCopy 1) s_tight _ _
           ltac:(compute_done) eq_refl He).
Defined.

(** Move-assigning [b] into [c] and then [c] into [b] restores both objects:
    the exchange is its own inverse. *)
Theorem move_assign_twice_restores s c b oc ob :
  c ≠ b → objs s !! c = Some oc → objs s !! b = Some ob →
  ∃ s1 s2, operator_assign_move c b s = Ok c s1
    ∧ operator_assign_move b c s1 = Ok b s2
    ∧ same_store s s2.
Proof.
  intros Hne Hc Hb.
  eexists _, _. split; [by apply operator_assign_move_spec|]. split.
  - apply (operator_assign_move_spec b c oc ob); simpl; [done | |].
    + apply lookup_insert_eq.
    + rewrite lookup_insert_ne by done. apply lookup_insert_eq.
  - unfold same_store. simpl. split_and!; [|done..].
    apply map_eq. intros i.
    destruct (decide (i = c)) as [->|Hic];
      [by rewrite lookup_insert_eq|rewrite lookup_insert_ne by done].
    destruct (decide (i = b)) as [->|Hib];
      [by rewrite lookup_insert_eq|rewrite lookup_insert_ne by done].
    by rewrite !lookup_insert_ne by done.
Qed.

Lemma move_assign_twice_restores_witness :
  ∃ s1 s2, operator_assign_move 2 1 s_two = Ok 2%positive s1
    ∧ operator_assign_move 1 2 s1 = Ok 1%positive s2
    ∧ same_store s_two s2.
Proof.
  apply (move_assign_twice_restores s_two 2 1 (mkA None 0) (mkA (Some 1%positive) 2));
    [done | reflexivity | reflexivity].
Defined.

(** After move construction from [b], destroying [b] releases nothing: the
    new object keeps [b]'s former storage, and heap and allocator are as
    before the move. *)
Theorem moved_from_destruction_keeps_storage s b ob :
  wf s → objs s !! b = Some ob →
  ∃ c s1 s2, A_move b s = Ok c s1 ∧ A_dtor b s1 = Ok tt s2
    ∧ objs s2 !! c = Some ob ∧ objs s2 !! b = None
    ∧ heap s2 = heap s ∧ avail s2 = avail s
    ∧ wf s2.
Proof.
  intros Hwf Hb. pose proof (fresh_obj_ne _ _ _ Hb) as Hne.
  set (s1 := mkState (<[b := mkA None 0]> (<[fresh (dom (objs s)) := ob]> (objs s)))
                     (heap s) (avail s) (cout s ++ ["Move constructor"])).
  exists (fresh (dom (objs s))), s1, (destroyed b (mkA None 0) s1).
  split; [by apply A_move_spec|].
  split; [apply A_dtor_spec; simpl; [apply lookup_insert_eq | by eexists]|].
  unfold destroyed, freed. simpl.
  rewrite lookup_delete_ne, lookup_insert_ne, lookup_insert_eq, lookup_delete_eq by done.
  split_and!; try done.
  pose proof (wf_moved ob b s (avail s) (cout s ++ ["Move constructor"]) Hwf Hb) as Hwf1.
  exact (wf_destroy _ b (mkA None 0) (avail s) _ Hwf1 (lookup_insert_eq _ _ _)).
Qed.

Lemma moved_from_destruction_keeps_storage_witness :
  wf s_two ∧
  ∃ c s1 s2, A_move 1 s_two = Ok c s1 ∧ A_dtor 1 s1 = Ok tt s2
    ∧ objs s2 !! c = Some (mkA (Some 1%positive) 2)
    ∧ heap s2 = heap s_two.
Proof.
  split; [compute_done|].
  destruct (moved_from_destruction_keeps_storage s_two 1 (mkA (Some 1%positive) 2))
    as (c & s1 & s2 & H1 & H2 & H3 & _ & H5 & _); [compute_done | reflexivity |].
  exists c, s1, s2. done.
Defined.

Lemma final_fmap {T U} (f : T → U) (r : outcome T) : final (fmap_outcome f r) = final r.
Proof. by destruct r. Qed.

Lemma no_orphans_ext s s' : objs s' = objs s → heap s' = heap s → no_orphans s → no_orphans s'.
Proof. unfold no_orphans. by intros -> ->. Qed.

Lemma orphans_insert s this x h' av co :
  no_orphans s →
  (∀ a blk, h' !! a = Some blk →
     data x = Some a
     ∨ (is_Some (heap s !! a) ∧ ∀ o, objs s !! this = Some o → data o ≠ Some a)) →
  no_orphans (mkState (<[this := x]> (objs s)) h' av co).
Proof.
  intros Hno Hblocks a blk Ha. simpl in *.
  destruct (Hblocks a blk Ha) as [Hx|[[blk0 Hold] Hnot]].
  - exists this, x. split; [apply lookup_insert_eq | done].
  - destruct (Hno a blk0 Hold) as (i & o & Hi & Hd). simpl in Hd.
    exists i, o. split; [|done]. rewrite lookup_insert_ne; [done|].
    intros <-. by apply (Hnot o).
Qed.

Lemma orphans_insert2 s i j x y av co :
  no_orphans s → i ≠ j →
  (∀ k o a, objs s !! k = Some o → data o = Some a → k = i ∨ k = j →
     data x = Some a ∨ data y = Some a) →
  no_orphans (mkState (<[j := y]> (<[i := x]> (objs s))) (heap s) av co).
Proof.
  intros Hno Hij Hmoved a blk Ha. simpl in *.
  destruct (Hno a blk Ha) as (k & o & Hk & Hd). simpl in Hd.
  destruct (decide (k = i ∨ k = j)) as [Hkij|Hn].
  - destruct (Hmoved k o a Hk Hd Hkij) as [Hx|Hy].
    + exists i, x. split; [|done]. rewrite lookup_insert_ne by done. apply lookup_insert_eq.
    + exists j, y. split; [apply lookup_insert_eq | done].
  - exists k, o. split; [|done].
    rewrite !lookup_insert_ne; [done | intros <-; tauto | intros <-; tauto].
Qed.

Lemma freed_heap_Some o s a blk :
  sound_buffer (heap s) o → heap (freed o s) !! a = Some blk →
  heap s !! a = Some blk ∧ data o ≠ Some a.
Proof.
  intros Hso Ha. destruct (decide (data o = Some a)) as [Hd|Hd].
  - by rewrite (freed_heap_own _ _ _ Hso Hd) in Ha.
  - by rewrite (freed_heap_other _ _ _ Hd) in Ha.
Qed.

Lemma orphans_destroy s this ot av co :
  wf s → no_orphans s → objs s !! this = Some ot →
  no_orphans (mkState (delete this (objs s)) (heap (freed ot s)) av co).
Proof.
  intros Hwf Hno Ht a blk Ha. simpl in *.
  destruct (freed_heap_Some _ _ _ _ (proj1 Hwf _ _ Ht) Ha) as [Hold Hnot].
  destruct (Hno a blk Hold) as (i & o & Hi & Hd). simpl in Hd.
  exists i, o. split; [|done]. rewrite lookup_delete_ne; [done|].
  intros <-. congruence.
Qed.

(** No operation leaks: if every heap block is owned by a live object
    before, so it is in the state the operation ends in, whether it returns
    or throws. *)
Theorem no_operation_leaks o s s' :
  wf s → no_orphans s → final (exec o s) = Some s' → no_orphans s'.
Proof.
  intros Hwf Hno. rewrite (exec_closed _ _ Hwf).
  assert (∀ f, no_orphans (set_cout f s)) as Hcout.
  { intros f. by apply (no_orphans_ext s). }
  assert (∀ n line, final (built n line s) = Some s' → no_orphans s') as Hbuilt.
  { intros n line. unfold built.
    destruct (0 <? n); [destruct (n <=? avail s)|]; simpl; intros [= <-]; try done.
    - apply orphans_insert; [done|]. intros a blk Ha.
      apply lookup_insert_Some in Ha as [[<- _]|[_ Ha]]; [by left|right].
      split; [eauto|]. intros x Hx. by rewrite fresh_obj in Hx.
    - apply orphans_insert; [done|]. intros a blk Ha. right.
      split; [eauto|]. intros x Hx. by rewrite fresh_obj in Hx. }
  destruct o as [|n|d|this|other|other|this other|this other|this]; simpl;
    rewrite ?final_fmap.
  - intros [= <-]. apply orphans_insert; [done|]. intros a blk Ha. right.
    split; [eauto|]. intros x Hx. by rewrite fresh_obj in Hx.
  - apply Hbuilt.
  - destruct (static_cast_int d); [rewrite final_fmap; apply Hbuilt | done].
  - destruct (objs s !! this); [|done]. by intros [= <-].
  - destruct (objs s !! other) as [oo|] eqn:Ho; [|done]. rewrite final_fmap. unfold copied.
    destruct (0 <? size oo);
      [destruct (size oo <=? avail s); [destruct (storage _ _); [|done]|]|];
      simpl; intros [= <-]; try done.
    + apply orphans_insert; [done|]. intros a blk Ha.
      apply lookup_insert_Some in Ha as [[<- _]|[_ Ha]]; [by left|right].
      split; [eauto|]. intros x Hx. by rewrite fresh_obj in Hx.
    + apply orphans_insert; [done|]. intros a blk Ha. right.
      split; [eauto|]. intros x Hx. by rewrite fresh_obj in Hx.
  - destruct (objs s !! other) as [oo|] eqn:Ho.
    + intros [= <-]. pose proof (fresh_obj_ne _ _ _ Ho) as Hne.
      apply orphans_insert2; [done | done |].
      intros k x a Hk Hd [->| ->]; [by rewrite fresh_obj in Hk|].
      left. congruence.
    + case_decide; [|done]. intros [= <-].
      apply orphans_insert; [done|]. intros a blk Ha. right.
      split; [eauto|]. intros x Hx. by rewrite fresh_obj in Hx.
  - case_decide as Hne; [by intros [= <-]|].
    destruct (objs s !! this) as [ot|] eqn:Ht; [|done].
    destruct (objs s !! other) as [oo|] eqn:Ho; [|done].
    rewrite final_fmap. unfold copy_assigned.
    pose proof (proj1 Hwf _ _ Ht) as Hst. simpl in Hst.
    destruct (0 <? size oo);
      [destruct (size oo <=? avail (freed ot s)); [destruct (storage _ _); [|done]|]|];
      simpl; intros [= <-]; apply orphans_insert; try done; intros a blk Ha.
    + apply lookup_insert_Some in Ha as [[<- _]|[_ Ha]]; [by left|right].
      destruct (freed_heap_Some _ _ _ _ Hst Ha) as [Hold Hnot].
      split; [eauto|]. intros x Hx. congruence.
    + right. destruct (freed_heap_Some _ _ _ _ Hst Ha) as [Hold Hnot].
      split; [eauto|]. intros x Hx. congruence.
    + right. destruct (freed_heap_Some _ _ _ _ Hst Ha) as [Hold Hnot].
      split; [eauto|]. intros x Hx. congruence.
  - case_decide as Hne; [by intros [= <-]|].
    destruct (objs s !! this) as [ot|] eqn:Ht; [|done].
    destruct (objs s !! other) as [oo|] eqn:Ho; [|done].
    intros [= <-]. apply orphans_insert2; [done | done |].
    intros k x a Hk Hd [->| ->]; [right | left]; congruence.
  - destruct (objs s !! this) as [ot|] eqn:Ht; [|done].
    intros [= <-]. by apply orphans_destroy.
Qed.

Lemma no_operation_leaks_witness :
  wf s_tight ∧ no_orphans s_tight ∧
  ∃ s', final (exec (OpCopyAssign 2 1) s_tight) = Some s' ∧ no_orphans s'.
Proof.
  split; [compute_done|]. split; [compute_done|].
  eexists.
  match goal with |- ?E ∧ _ => assert E as He by (vm_compute; reflexivity) end.
  split; [exact He|].
  exact (no_operation_leaks (OpCopyAssign 2 1) s_tight _
           ltac:(compute_done) ltac:(compute_done) He).
Defined.

(** Every operation prints exactly one line, its own label, whether it
    returns or throws. *)
Theorem every_operation_prints_its_label o s s' :
  wf s → final (exec o s) = Some s' → cout s' = cout s ++ [label o].
Proof.
  intros Hwf. rewrite (exec_closed _ _ Hwf).
  assert (∀ n line, final (built n line s) = Some s' → cout s' = cout s ++ [line]) as Hbuilt.
  { intros n line. unfold built.
    destruct (0 <? n); [destruct (n <=? avail s)|]; simpl; by intros [= <-]. }
  destruct o as [|n|d|this|other|other|this other|this other|this]; simpl;
    rewrite ?final_fmap.
  - by intros [= <-].
  - apply Hbuilt.
  - destruct (static_cast_int d); [rewrite final_fmap; apply Hbuilt | done].
  - destruct (objs s !! this); [|done]. by intros [= <-].
  - destruct (objs s !! other) as [oo|]; [|done]. rewrite final_fmap. unfold copied.
    destruct (0 <? size oo);
      [destruct (size oo <=? avail s); [destruct (storage _ _); [|done]|]|];
      simpl; by intros [= <-].
  - destruct (objs s !! other) as [oo|]; [by intros [= <-]|].
    case_decide; [|done]. by intros [= <-].
  - case_decide as Hne; [by intros [= <-]|].
    destruct (objs s !! this) as [ot|]; [|done].
    destruct (objs s !! other) as [oo|]; [|done].
    rewrite final_fmap. unfold copy_assigned.
    destruct (0 <? size oo);
      [destruct (size oo <=? avail (freed ot s)); [destruct (storage _ _); [|done]|]|];
      simpl; by intros [= <-].
  - case_decide as Hne; [by intros [= <-]|].
    destruct (objs s !! this) as [ot|]; [|done].
    destruct (objs s !! other) as [oo|]; [|done]. by intros [= <-].
  - destruct (objs s !! this) as [ot|]; [|done]. by intros [= <-].
Qed.

Lemma every_operation_prints_its_label_witness :
  wf s_tight ∧
  ∃ s', final (exec (OpCopyAssign 2 1) s_tight) = Some s'
        ∧ cout s' = ["Copy assignment operator"].
Proof.
  split; [compute_done|].
  eexists.
  match goal with |- ?E ∧ _ => assert E as He by (vm_compute; reflexivity) end.
  split; [exact He|].
  exact (every_operation_prints_its_label (OpCopyAssign 2 1) s_tight _
           ltac:(compute_done) He).
Defined.


(** ** Spare memory and the run of [main] *)

Lemma wf_more k s : wf s → wf (more k s).
Proof. by apply wf_ext. Qed.

Lemma freed_more k o s : freed o (more k s) = more k (freed o s).
Proof.
  unfold freed. destruct (data o) as [b|]; [|done]. simpl.
  destruct (heap s !! b); [|done].
  apply state_eq; simpl; try done. lia.
Qed.

Lemma built_more k n line s this s1 :
  0 <= k → built n line s = Ok this s1 → built n line (more k s) = Ok this (more k s1).
Proof.
  intros Hk. unfold built. simpl.
  destruct (0 <? n).
  - destruct (Z.leb_spec n (avail s)); [|done]. intros [= <- <-].
    rewrite (proj2 (Z.leb_le n (avail s + k))) by lia.
    f_equal. apply state_eq; simpl; try done. lia.
  - intros [= <- <-]. f_equal.
Qed.

Lemma fmap_more {T} (r r' : outcome T) (f : T → value) v s' k :
  (∀ x s1, r = Ok x s1 → r' = Ok x (more k s1)) →
  fmap_outcome f r = Ok v s' → fmap_outcome f r' = Ok v (more k s').
Proof.
  intros Hr (x & -> & ->)%fmap_outcome_Ok. by rewrite (Hr x s' eq_refl).
Qed.

(** An operation that returns still returns, with the same result and the
    same store, when the allocator has [k] more [int]s to give. *)
Theorem success_survives_more_memory o k s v s' :
  0 <= k → wf s → exec o s = Ok v s' →
  exec o (more k s) = Ok v (more k s').
Proof.
  intros Hk Hwf. rewrite (exec_closed _ _ Hwf), (exec_closed _ _ (wf_more k s Hwf)).
  destruct o as [|n|d|this|other|other|this other|this other|this]; simpl.
  - by intros [= <- <-].
  - apply fmap_more. intros x s1. by apply built_more.
  - destruct (static_cast_int d); [|done].
    apply fmap_more. intros x s1. by apply built_more.
  - destruct (objs s !! this); [|done]. by intros [= <- <-].
  - destruct (objs s !! other) as [oo|]; [|done].
    apply fmap_more. intros x s1. unfold copied. simpl.
    destruct (0 <? size oo).
    + destruct (Z.leb_spec (size oo) (avail s)); [|done].
      rewrite (proj2 (Z.leb_le (size oo) (avail s + k))) by lia.
      destruct (storage _ _); [|done]. intros [= <- <-].
      f_equal. apply state_eq; simpl; try done. lia.
    + by intros [= <- <-].
  - destruct (objs s !! other) as [oo|]; [by intros [= <- <-]|].
    case_decide; [|done]. by intros [= <- <-].
  - case_decide as Hne; [by intros [= <- <-]|].
    destruct (objs s !! this) as [ot|]; [|done].
    destruct (objs s !! other) as [oo|]; [|done].
    apply fmap_more. intros x s1. unfold copy_assigned. rewrite freed_more. simpl.
    destruct (0 <? size oo).
    + destruct (Z.leb_spec (size oo) (avail (freed ot s))); [|done].
      rewrite (proj2 (Z.leb_le (size oo) (avail (freed ot s) + k))) by lia.
      destruct (storage _ _); [|done]. intros [= <- <-].
      f_equal. apply state_eq; simpl; try done. lia.
    + by intros [= <- <-].
  - case_decide as Hne; [by intros [= <- <-]|].
    destruct (objs s !! this) as [ot|]; [|done].
    destruct (objs s !! other) as [oo|]; [|done]. by intros [= <- <-].
  - destruct (objs s !! this) as [ot|]; [|done]. intros [= <- <-].
    f_equal. unfold destroyed. rewrite freed_more. done.
Qed.

Lemma success_survives_more_memory_witness :
  wf s_two ∧
  ∃ v s', exec (OpCopy 1) s_two = Ok v s'
        ∧ exec (OpCopy 1) (more 100 s_two) = Ok v (more 100 s').
Proof.
  split; [compute_done|].
  eexists _, _.
  match goal with |- ?E ∧ _ => assert E as He by (vm_compute; reflexivity) end.
  split; [exact He|].
  exact (success_survives_more_memory (OpCopy 1) 100 s_two _ _
           ltac:(lia) ltac:(compute_done) He).
Defined.

Lemma stable_bind {T U} (c : M T) (f : T → M U) :
  stable c → (∀ x, stable (f x)) → stable (bind c f).
Proof.
  intros Hc Hf k s v s' Hk Hwf. unfold bind.
  destruct (c s) as [x s1|e s1|] eqn:Hcs; [|done..]. intros Hfx.
  destruct (Hc k s x s1 Hk Hwf Hcs) as [Hwf1 ->].
  by apply Hf.
Qed.

Lemma stable_ret {T} (v : T) : stable (ret v).
Proof. intros k s x s' Hk Hwf [= <- <-]. done. Qed.

Lemma stable_print line : stable (print line).
Proof. intros k s x s' Hk Hwf [= <- <-]. split; [by apply wf_set_cout | done]. Qed.

Lemma stable_endl : stable endl.
Proof. intros k s x s' Hk Hwf [= <- <-]. split; [by apply wf_set_cout | done]. Qed.

Lemma stable_exec {T} (c : M T) (f : T → value) (o : op) :
  Inj (=) (=) f → (∀ s, exec o s = fmap_outcome f (c s)) → stable c.
Proof.
  intros Hinj Hexec k s v s' Hk Hwf Hc.
  assert (exec o s = Ok (f v) s') as He by (by rewrite Hexec, Hc).
  split.
  - rewrite (exec_closed _ _ Hwf) in He. by apply (closed_wf o s (f v)).
  - pose proof (success_survives_more_memory o k s _ _ Hk Hwf He) as Hm.
    rewrite Hexec in Hm. destruct (c (more k s)) as [x s1|e s1|]; [|done..].
    simpl in Hm. injection Hm as Hx <-. by apply Hinj in Hx as ->.
Qed.

Lemma VObj_inj : Inj (=) (=) VObj.
Proof. by intros x y [= ->]. Qed.

Lemma VInt_inj : Inj (=) (=) VInt.
Proof. by intros x y [= ->]. Qed.

Lemma stable_A_default : stable A_default.
Proof. apply (stable_exec _ VObj OpDefault); [apply VObj_inj|]. intros s. apply bind_ret_fmap. Qed.

Lemma stable_A_int n : stable (A_int n).
Proof. apply (stable_exec _ VObj (OpInt n)); [apply VObj_inj|]. intros s. apply bind_ret_fmap. Qed.

Lemma stable_A_double d : stable (A_double d).
Proof. apply (stable_exec _ VObj (OpDouble d)); [apply VObj_inj|]. intros s. apply bind_ret_fmap. Qed.

Lemma stable_operator_int this : stable (operator_int this).
Proof. apply (stable_exec _ VInt (OpToInt this)); [apply VInt_inj|]. intros s. apply bind_ret_fmap. Qed.

Lemma stable_A_copy other : stable (A_copy other).
Proof. apply (stable_exec _ VObj (OpCopy other)); [apply VObj_inj|]. intros s. apply bind_ret_fmap. Qed.

Lemma stable_A_move other : stable (A_move other).
Proof. apply (stable_exec _ VObj (OpMove other)); [apply VObj_inj|]. intros s. apply bind_ret_fmap. Qed.

Lemma stable_operator_assign_copy this other : stable (operator_assign_copy this other).
Proof.
  apply (stable_exec _ VObj (OpCopyAssign this other)); [apply VObj_inj|].
  intros s. apply bind_ret_fmap.
Qed.

Lemma stable_operator_assign_move this other : stable (operator_assign_move this other).
Proof.
  apply (stable_exec _ VObj (OpMoveAssign this other)); [apply VObj_inj|].
  intros s. apply bind_ret_fmap.
Qed.

Lemma stable_A_dtor this : stable (A_dtor this).
Proof.
  apply (stable_exec _ (λ _ : unit, VUnit) (OpDestroy this)).
  - by intros [] [] _.
  - intros s. apply bind_ret_fmap.
Qed.

Lemma stable_main : stable main.
Proof.
  unfold main.
  repeat lazymatch goal with
  | |- stable (bind _ _) => apply stable_bind; [|intros ?]
  | |- stable (ret _) => apply stable_ret
  | |- stable (print _) => apply stable_print
  | |- stable endl => apply stable_endl
  | |- stable A_default => apply stable_A_default
  | |- stable (A_int _) => apply stable_A_int
  | |- stable (A_double _) => apply stable_A_double
  | |- stable (operator_int _) => apply stable_operator_int
  | |- stable (A_copy _) => apply stable_A_copy
  | |- stable (A_move _) => apply stable_A_move
  | |- stable (operator_assign_copy _ _) => apply stable_operator_assign_copy
  | |- stable (operator_assign_move _ _) => apply stable_operator_assign_move
  | |- stable (A_dtor _) => apply stable_A_dtor
  end.
Qed.

Lemma main_740 : main (init 740) = Ok 0 (mkState ∅ ∅ 740 main_output).
Proof. vm_compute. reflexivity. Qed.

Lemma main_739 : ∃ s, main (init 739) = Throw bad_alloc s.
Proof. eexists. vm_compute. reflexivity. Qed.

(** [main] returns [0] exactly when the allocator can supply 740 [int]s: it
    then prints its 39 lines and ends with no live object, an empty heap and
    every [int] handed back; with less memory it does not return. *)
Theorem main_returns_and_releases budget :
  (740 <= budget → main (init budget) = Ok 0 (mkState ∅ ∅ budget main_output))
  ∧ (budget < 740 → ∀ v s', main (init budget) ≠ Ok v s').
Proof.
  split.
  - intros Hb.
    destruct (stable_main (budget - 740) (init 740) 0 (mkState ∅ ∅ 740 main_output))
      as [_ Hm]; [lia | compute_done | exact main_740 |].
    transitivity (main (more (budget - 740) (init 740))).
    { f_equal. apply state_eq; cbn [objs heap avail cout init more set_avail];
        [done..|lia|done]. }
    etransitivity; [exact Hm|].
    f_equal. apply state_eq; cbn [objs heap avail cout more set_avail]; [done..|lia|done].
  - intros Hb v s' Hmain.
    destruct (stable_main (739 - budget) (init budget) v s') as [_ Hm];
      [lia | by split | exact Hmain |].
    assert (more (739 - budget) (init budget) = init 739) as Heq.
    { apply state_eq; cbn [objs heap avail cout init more set_avail]; [done..|lia|done]. }
    assert (main (init 739) = Ok v (more (739 - budget) s')) as H739.
    { etransitivity; [|exact Hm]. f_equal. by symmetry. }
    destruct main_739 as [s739 Hthrow]. congruence.
Qed.

Lemma main_returns_and_releases_witness :
  (740 <= 1000 ∧ main (init 1000) = Ok 0 (mkState ∅ ∅ 1000 main_output))
  ∧ (100 < 740 ∧ ∀ v s', main (init 100) ≠ Ok v s').
Proof.
  split; (split; [lia|]).
  - exact (proj1 (main_returns_and_releases 1000) ltac:(lia)).
  - exact (proj2 (main_returns_and_releases 100) ltac:(lia)).
Defined.
